(** * Birks'-law calculator: SRIM parser and quenching model

    A shallow embedding of [birks-calculator/srim_parser.py] and
    [birks-calculator/physics.py].

    Conventions of the embedding.
    - A Python [float] is an exact rational ([Q]): rounding, overflow to
      [inf] and [nan] are not modelled.  Division by zero yields [0]
      (the convention of [Qinv]) where NumPy would yield [inf] or [nan].
    - A Python [str] is a [string] whose characters are the code points
      0..255.
    - A raised exception is a value of type [exn]; a function that can
      raise returns a [result].
    - [scipy.integrate.quad] and [scipy.optimize.brentq] are library
      code: they are parameters of the model, and the properties assumed
      of them are stated where they are used. *)

From Stdlib Require Import ZArith QArith Qabs Qround List String Ascii Bool Lia Lqa.
From Stdlib Require Import Sorted Permutation.
Import ListNotations.

Local Open Scope string_scope.

(** ** Exceptions *)

(** One constructor per [raise] statement of the two modules. *)
Inductive exn : Type :=
  | ValueError_no_data_section        (* srim_parser.py, line 82 *)
  | ValueError_no_data_points         (* srim_parser.py, line 117 *)
  | ValueError_unknown_energy_unit (unit : string)  (* srim_parser.py, line 159 *)
  | ValueError_float (text : string)  (* float() on a malformed literal *)
  | IndexError_empty_frame            (* df[...].iloc[0] on an empty frame *)
  | ValueError_negative_kb            (* physics.py, line 113 *)
  | RuntimeError_integration_failed   (* physics.py, line 136 *)
  | ValueError_initial_not_positive   (* physics.py, line 192 *)
  | ValueError_observed_not_positive  (* physics.py, line 195 *)
  | ValueError_observed_exceeds_initial (* physics.py, line 198 *)
  | ValueError_no_solution_max_kb     (* physics.py, line 220 *)
  | ValueError_no_solution_in_range   (* physics.py, line 226 *)
  | RuntimeError_root_finding_failed. (* physics.py, line 243 *)

Inductive result (A : Type) : Type :=
  | Ok (a : A)
  | Raise (e : exn).
Arguments Ok {A} a.
Arguments Raise {A} e.

Definition bind {A B : Type} (r : result A) (k : A -> result B) : result B :=
  match r with
  | Ok a => k a
  | Raise e => Raise e
  end.

Notation "x <- r ;; k" := (bind r (fun x => k))
  (at level 61, r at next level, right associativity).

(** The error taxonomy of the specification (section 7). *)
Inductive error_kind : Type :=
  | InvalidArgument
  | NoSolutionInRange
  | IntegrationFailure
  | RootFindingFailure
  | ParseError
  | OtherError.

Definition kind_of (e : exn) : error_kind :=
  match e with
  | ValueError_negative_kb
  | ValueError_initial_not_positive
  | ValueError_observed_not_positive
  | ValueError_observed_exceeds_initial => InvalidArgument
  | ValueError_no_solution_max_kb
  | ValueError_no_solution_in_range => NoSolutionInRange
  | RuntimeError_integration_failed => IntegrationFailure
  | RuntimeError_root_finding_failed => RootFindingFailure
  | ValueError_no_data_section
  | ValueError_no_data_points => ParseError
  | ValueError_unknown_energy_unit _
  | ValueError_float _
  | IndexError_empty_frame => OtherError
  end.

(** ** Python strings *)

Module PyStr.

Local Open Scope nat_scope.

Definition code (c : ascii) : nat := nat_of_ascii c.

(** [str.isspace] on one character, which is also the class [\s] of
    [re] on [str] patterns. *)
Definition isspace (c : ascii) : bool :=
  let n := code c in
  ((9 <=? n) && (n <=? 13)) || ((28 <=? n) && (n <=? 32))
  || (n =? 133) || (n =? 160).

(** The class [\d]: among the code points 0..255 only [0-9]. *)
Definition isdigit (c : ascii) : bool :=
  let n := code c in (48 <=? n) && (n <=? 57).

Definition is_empty (s : string) : bool :=
  match s with
  | EmptyString => true
  | String _ _ => false
  end.

Fixpoint lstrip (s : string) : string :=
  match s with
  | EmptyString => EmptyString
  | String c s' => if isspace c then lstrip s' else s
  end.

Fixpoint rstrip (s : string) : string :=
  match s with
  | EmptyString => EmptyString
  | String c s' =>
      let r := rstrip s' in
      if is_empty r && isspace c then EmptyString else String c r
  end.

(** [s.strip()] *)
Definition strip (s : string) : string := lstrip (rstrip s).

(** [s.split('\n')] *)
Fixpoint split_lines (s : string) : list string :=
  match s with
  | EmptyString => [EmptyString]
  | String c s' =>
      if code c =? 10 then EmptyString :: split_lines s'
      else match split_lines s' with
           | l :: ls => String c l :: ls
           | [] => [String c EmptyString]
           end
  end.

(** [s.startswith(p)] *)
Definition startswith (p s : string) : bool := prefix p s.

(** [p in s] *)
Fixpoint contains (p s : string) : bool :=
  prefix p s ||
  match s with
  | EmptyString => false
  | String _ s' => contains p s'
  end.

Definition lower_char (c : ascii) : ascii :=
  let n := code c in
  if ((65 <=? n) && (n <=? 90))
     || ((192 <=? n) && (n <=? 222) && negb (n =? 215))
  then ascii_of_nat (n + 32) else c.

(** [s.lower()] *)
Fixpoint lower (s : string) : string :=
  match s with
  | EmptyString => EmptyString
  | String c s' => String (lower_char c) (lower s')
  end.

Fixpoint drop (n : nat) (s : string) : string :=
  match n, s with
  | O, _ => s
  | S n', String _ s' => drop n' s'
  | S _, EmptyString => EmptyString
  end.

Fixpoint all_chars (p : ascii -> bool) (s : string) : bool :=
  match s with
  | EmptyString => true
  | String c s' => p c && all_chars p s'
  end.

Definition char_in (cs : string) (c : ascii) : bool :=
  contains (String c EmptyString) cs.

End PyStr.

(** ** The fragment of [re] used by the parser

    Both patterns of [srim_parser.py] are sequences of character classes
    under [*], [+] or [?], and literals, some of them inside a capturing
    group.  Quantifiers are greedy and the matcher backtracks, as
    Python's does: the result is the first match in priority order. *)

Module Re.

Local Open Scope nat_scope.

Inductive atom : Type :=
  | Many (cls : ascii -> bool) (min : nat) (* [cls*] is [Many cls 0], [cls+] is [Many cls 1] *)
  | Opt (cls : ascii -> bool)              (* [cls?] *)
  | Lit (s : string).

(** An atom with the number of the group it belongs to (0: none). *)
Definition pattern : Type := list (nat * atom).

Definition cons_piece (p : string) (r : option (list string)) : option (list string) :=
  option_map (cons p) r.

(** Greedy repetition: the longest run first, then shorter ones. *)
Fixpoint many (cls : ascii -> bool) (min : nat)
    (k : string -> option (list string)) (s : string)
    : option (string * list string) :=
  let stop :=
    match min with
    | O => option_map (pair EmptyString) (k s)
    | S _ => None
    end in
  match s with
  | String c s' =>
      if cls c then
        match many cls (pred min) k s' with
        | Some (piece, r) => Some (String c piece, r)
        | None => stop
        end
      else stop
  | EmptyString => stop
  end.

(** [re_match p s]: the text consumed by each atom of [p] when [p]
    matches a prefix of [s] (as [re.compile(p).match(s)]). *)
Fixpoint re_match (p : pattern) (s : string) : option (list string) :=
  match p with
  | [] => Some []
  | (_, a) :: p' =>
      match a with
      | Lit l =>
          if prefix l s
          then cons_piece l (re_match p' (PyStr.drop (String.length l) s))
          else None
      | Opt cls =>
          let skip := cons_piece EmptyString (re_match p' s) in
          match s with
          | String c s' =>
              if cls c then
                match re_match p' s' with
                | Some r => Some (String c EmptyString :: r)
                | None => skip
                end
              else skip
          | EmptyString => skip
          end
      | Many cls min =>
          match many cls min (re_match p') s with
          | Some (piece, r) => Some (piece :: r)
          | None => None
          end
      end
  end.

(** [match.group(g)] *)
Fixpoint group (g : nat) (p : pattern) (pieces : list string) : string :=
  match p, pieces with
  | (g', _) :: p', x :: pieces' =>
      if g' =? g then String.append x (group g p' pieces') else group g p' pieces'
  | _, _ => EmptyString
  end.

(** The texts an atom can consume. *)
Definition accepts (a : atom) (piece : string) : Prop :=
  match a with
  | Many cls min =>
      PyStr.all_chars cls piece = true /\ (min <= String.length piece)%nat
  | Opt cls =>
      piece = EmptyString \/ exists c, cls c = true /\ piece = String c EmptyString
  | Lit l => piece = l
  end.

Fixpoint join (pieces : list string) : string :=
  match pieces with
  | [] => EmptyString
  | x :: pieces' => x ++ join pieces'
  end.

End Re.

(** ** Data frames

    The only frames of the program have the two columns [Energy_MeV]
    and [dE_dx]: a frame is the list of its rows. *)

Record row : Type := mkRow { Energy_MeV : Q; dE_dx : Q }.

Definition frame : Type := list row.

Fixpoint insert_row (r : row) (df : frame) : frame :=
  match df with
  | [] => [r]
  | x :: df' =>
      if Qle_bool (Energy_MeV r) (Energy_MeV x) then r :: df
      else x :: insert_row r df'
  end.

(** [df.sort_values('Energy_MeV').reset_index(drop=True)].  Rows of
    equal energy keep their order here; pandas leaves it unspecified. *)
Fixpoint sort_values (df : frame) : frame :=
  match df with
  | [] => []
  | r :: df' => insert_row r (sort_values df')
  end.

(** The order of the rows of a sorted frame. *)
Definition energy_le (r1 r2 : row) : Prop := (Energy_MeV r1 <= Energy_MeV r2)%Q.

(** ** srim_parser.py *)

Module SrimParser.

Import PyStr Re.

Local Open Scope nat_scope.

(** *** [float(text)] *)

Fixpoint digits (s : string) (acc : Z) (n : nat) : Z * nat * string :=
  match s with
  | String c s' =>
      if isdigit c
      then digits s' (10 * acc + Z.of_nat (code c - 48))%Z (S n)
      else (acc, n, s)
  | EmptyString => (acc, n, s)
  end.

Definition sign (s : string) : Z * string :=
  match s with
  | String "+" s' => (1%Z, s')
  | String "-" s' => ((-1)%Z, s')
  | _ => (1%Z, s)
  end.

(** [m * 10^e] *)
Definition scale (m e : Z) : Q :=
  if (0 <=? e)%Z then inject_Z (m * 10 ^ e)
  else Qmake m (Z.to_pos (10 ^ (- e))).

Definition is_exponent_mark (c : ascii) : bool :=
  (code c =? 69) || (code c =? 101).

(** Decimal literals: an optional sign, digits with at most one point
    and at least one digit, an optional exponent.  The other spellings
    that [float] accepts ([inf], [nan], digits grouped by underscores)
    are left out. *)
Definition py_float (text : string) : result Q :=
  let bad := Raise (ValueError_float text) in
  let '(sg, s1) := sign (strip text) in
  let '(ip, ni, s2) := digits s1 0%Z 0 in
  let '(m, nf, s3) :=
    match s2 with
    | String "." s2' => digits s2' ip 0
    | _ => (ip, 0, s2)
    end in
  if ni + nf =? 0 then bad
  else
    match s3 with
    | EmptyString => Ok (scale (sg * m) (- Z.of_nat nf))
    | String c s4 =>
        if is_exponent_mark c then
          let '(esg, s5) := sign s4 in
          let '(ev, ne, s6) := digits s5 0%Z 0 in
          if (ne =? 0) || negb (is_empty s6) then bad
          else Ok (scale (sg * m) (esg * ev - Z.of_nat nf))
        else bad
    end.

(** *** [_convert_to_mev] *)

Definition conversion_factors : list (string * Q) :=
  [ ("ev", 0.000001%Q); ("kev", 0.001%Q); ("mev", 1%Q);
    ("gev", 1000%Q); ("tev", 1000000%Q) ].

Fixpoint lookup (k : string) (d : list (string * Q)) : option Q :=
  match d with
  | [] => None
  | (k', v) :: d' => if String.eqb k k' then Some v else lookup k d'
  end.

Definition _convert_to_mev (value : Q) (unit : string) : result Q :=
  let unit := lower (strip unit) in
  match lookup unit conversion_factors with
  | None => Raise (ValueError_unknown_energy_unit unit)
  | Some factor => Ok (value * factor)%Q
  end.

(** *** The two patterns *)

Definition cls_number (c : ascii) : bool := isdigit c || char_in "." c.
Definition cls_stopping (c : ascii) : bool := isdigit c || char_in ".E+-" c.

(** [^\s*[\d.]+\s*[kMGTe]?eV] *)
Definition energy_pattern : pattern :=
  [ (0, Many isspace 0); (0, Many cls_number 1); (0, Many isspace 0);
    (0, Opt (char_in "kMGTe")); (0, Lit "eV") ].

(** [^\s*([\d.]+)\s*([kMGT]?eV)\s+([\d.E+-]+)\s*] *)
Definition line_pattern : pattern :=
  [ (0, Many isspace 0); (1, Many cls_number 1); (0, Many isspace 0);
    (2, Opt (char_in "kMGT")); (2, Lit "eV"); (0, Many isspace 1);
    (3, Many cls_stopping 1); (0, Many isspace 0) ].

Definition matches (p : pattern) (s : string) : bool :=
  match re_match p s with
  | Some _ => true
  | None => false
  end.

(** *** Locating the data section *)

(** The first index [j >= i] with [p j (l_j)], where [l] are the
    elements from index [i] on. *)
Fixpoint find_from {A : Type} (p : nat -> A -> bool) (i : nat) (l : list A)
    : option nat :=
  match l with
  | [] => None
  | x :: l' => if p i x then Some i else find_from p (S i) l'
  end.

Definition find_index {A : Type} (p : nat -> A -> bool) (from : nat)
    (l : list A) : option nat :=
  find_from p from (skipn from l).

Definition is_header (line : string) : bool :=
  contains "Energy" line && (contains "Elec" line || contains "Electronic" line).

Definition is_separator (line : string) : bool :=
  startswith "-" (strip line) || startswith "=" (strip line).

(** Lines 41-51: the start of the data after the column headers. *)
Definition header_start (lines : list string) : option nat :=
  match find_index (fun _ => is_header) 0 lines with
  | None => None
  | Some i =>
      match find_index (fun _ => is_separator) (i + 1) lines with
      | Some j => Some (j + 1)
      | None => Some (i + 1)
      end
  end.

Definition ends_data (data_start_idx i : nat) (line : string) : bool :=
  let stripped := strip line in
  is_empty stripped
  || (startswith "---" stripped && (data_start_idx <? i))
  || (startswith "===" stripped && (data_start_idx <? i))
  || startswith "Multiply" stripped
  || (contains "Stopping" stripped && contains "Units" stripped).

(** Lines 54-65. *)
Definition header_end (data_start_idx : nat) (lines : list string) : option nat :=
  find_index (ends_data data_start_idx) data_start_idx lines.

(** Lines 68-79: without headers, the first line that looks like data
    starts the section and the first separator after it ends it. *)
Fixpoint scan (i : nat) (data_start_idx : option nat) (lines : list string)
    : option nat * option nat :=
  match lines with
  | [] => (data_start_idx, None)
  | line :: rest =>
      if matches energy_pattern line then
        match data_start_idx with
        | None => scan (S i) (Some i) rest
        | Some _ => scan (S i) data_start_idx rest
        end
      else
        match data_start_idx with
        | Some _ =>
            if negb (is_empty (strip line)) && negb (matches energy_pattern line)
            then
              if negb (is_separator line) then scan (S i) data_start_idx rest
              else (data_start_idx, Some i)
            else scan (S i) data_start_idx rest
        | None => scan (S i) data_start_idx rest
        end
  end.

(** [l[a:b]] for [0 <= a] and [0 <= b]. *)
Definition slice {A : Type} (a b : nat) (l : list A) : list A :=
  firstn (b - a) (skipn a l).

(** *** Data rows *)

(** The body of the loop of lines 100-114: [None] when the line adds
    no row. *)
Definition parse_line (line : string) : result (option row) :=
  if is_empty (strip line) then Ok None
  else
    match re_match line_pattern line with
    | None => Ok None
    | Some m =>
        energy_val <- py_float (group 1 line_pattern m) ;;
        let energy_unit := group 2 line_pattern m in
        dedx_val <- py_float (group 3 line_pattern m) ;;
        energy_mev <- _convert_to_mev energy_val energy_unit ;;
        Ok (Some (mkRow energy_mev dedx_val))
    end.

Fixpoint parse_lines (lines : list string) : result frame :=
  match lines with
  | [] => Ok []
  | line :: rest =>
      r <- parse_line line ;;
      rows <- parse_lines rest ;;
      Ok (match r with
          | Some x => x :: rows
          | None => rows
          end)
  end.

Definition parse_srim_text (content : string) : result frame :=
  let lines := split_lines (strip content) in
  let '(data_start_idx, data_end_idx) :=
    match header_start lines with
    | Some s => (Some s, header_end s lines)
    | None => scan 0 None lines
    end in
  match data_start_idx with
  | None => Raise ValueError_no_data_section
  | Some s =>
      let e :=
        match data_end_idx with
        | None => List.length lines
        | Some e => e
        end in
      rows <- parse_lines (slice s e lines) ;;
      if List.length rows =? 0 then Raise ValueError_no_data_points
      else Ok (sort_values rows)
  end.

(** The conversion table in the words of the specification: the factor
    to MeV of each unit a data row can carry. *)
Definition unit_table : list (string * Q) :=
  [ ("eV", 0.000001%Q); ("keV", 0.001%Q); ("MeV", 1%Q);
    ("GeV", 1000%Q); ("TeV", 1000000%Q) ].

(** The units of the specification's data rows. *)
Definition units : list string := ["eV"; "keV"; "MeV"; "GeV"; "TeV"].

(** A line feed, and texts to run the parser on: the scenario of the
    specification, and a table whose rows are out of order. *)
Definition LF : string := String (ascii_of_nat 10) EmptyString.

Definition scenario_text : string :=
  "Energy      dE/dx Elec." ++ LF ++
  "----------" ++ LF ++
  "1.000 MeV   5.234E+01   ...".

Definition shuffled_text : string :=
  "  Ion Energy   dE/dx Elec.   dE/dx Nuclear" ++ LF ++
  "  -----------  ----------    ----------" ++ LF ++
  "   2.00 MeV   8.000E+00  1.1E-03" ++ LF ++
  " 500.0 keV    7.5  2.0E-03" ++ LF ++
  "  10.00 eV    1.000E-02  3.0E-03" ++ LF ++
  "   1.00 GeV   2.5E-01  4.0E-03" ++ LF ++
  "  -----------------------------------" ++ LF ++
  " Multiply Stopping by        for Stopping Units".

(** The table of [shuffled_text], as parsed. *)
Definition shuffled_frame : frame :=
  Eval vm_compute in
    match parse_srim_text shuffled_text with
    | Ok df => df
    | Raise _ => []
    end.

End SrimParser.

(** ** physics.py *)

Definition Qlt_bool (x y : Q) : bool := negb (Qle_bool y x).

Module Physics.

Local Open Scope Q_scope.

(** *** [scipy.interpolate.interp1d], linear, with extrapolation

    With [kind='linear'] and [fill_value='extrapolate'] every query is
    answered by [_call_linear]: the bracket is found by [searchsorted],
    clipped to the table, and its line is evaluated at the query, in
    the table or out of it. *)

(** [numpy.searchsorted(xs, x)] on a sorted [xs]: how many leading
    elements are below [x]. *)
Fixpoint searchsorted (xs : list Q) (x : Q) : nat :=
  match xs with
  | [] => O
  | e :: xs' => if Qlt_bool e x then S (searchsorted xs' x) else O
  end.

(** [i.clip(lo, hi)] *)
Definition clip (i lo hi : nat) : nat := Nat.min (Nat.max i lo) hi.

Definition interp1d (xs ys : list Q) (x_new : Q) : Q :=
  let hi := clip (searchsorted xs x_new) 1 (List.length xs - 1) in
  (* [lo] is [-1], the last index, only for a table of one sample,
     where it denotes the sample of index 0 as well *)
  let lo := (hi - 1)%nat in
  let x_lo := nth lo xs 0 in
  let x_hi := nth hi xs 0 in
  let y_lo := nth lo ys 0 in
  let y_hi := nth hi ys 0 in
  let slope := (y_hi - y_lo) / (x_hi - x_lo) in
  slope * (x_new - x_lo) + y_lo.

(** *** [BirksCalculator] *)

Record BirksCalculator : Type := mkCalc {
  energy : list Q;
  dedx : list Q;
  max_energy : Q;
  min_energy : Q
}.

(** [__init__] *)
Definition init (df : frame) : result BirksCalculator :=
  let df := sort_values df in
  match df with
  | [] => Raise IndexError_empty_frame
  | r0 :: _ =>
      let df :=
        if Qlt_bool 0 (Energy_MeV r0) then mkRow 0 0 :: df else df in
      let energy := map Energy_MeV df in
      Ok {| energy := energy;
            dedx := map dE_dx df;
            max_energy := last energy 0;
            min_energy := hd 0 energy |}
  end.

Definition get_dedx (self : BirksCalculator) (energy_mev : Q) : Q :=
  interp1d (energy self) (dedx self) energy_mev.

Definition get_energy_range (self : BirksCalculator) : Q * Q :=
  (min_energy self, max_energy self).

(** The integrand of [calculate_visible_energy]. *)
Definition integrand (self : BirksCalculator) (kb_mm_mev E : Q) : Q :=
  let dedx_val := get_dedx self E in
  let denom := 1 + kb_mm_mev * dedx_val in
  if Qle_bool denom 0 then 0 else 1 / denom.

Section Numerics.

(** [quad f a b] is the value returned by
    [scipy.integrate.quad(f, a, b, limit=100, epsabs=1e-6, epsrel=1e-6)],
    or [None] when the call raises. *)
Variable quad : (Q -> Q) -> Q -> Q -> option Q.

(** [brentq f a b] is the root returned by
    [scipy.optimize.brentq(f, a, b, xtol=1e-8, rtol=1e-8, maxiter=100)],
    or [None] when the call raises, be it the root finder or [f]. *)
Variable brentq : (Q -> result Q) -> Q -> Q -> option Q.

Definition calculate_visible_energy (self : BirksCalculator)
    (initial_energy_mev kb_mm_mev : Q) : result Q :=
  if Qle_bool initial_energy_mev 0 then Ok 0
  else if Qlt_bool kb_mm_mev 0 then Raise ValueError_negative_kb
  else
    match quad (integrand self kb_mm_mev) 0 initial_energy_mev with
    | Some visible_energy => Ok visible_energy
    | None => Raise RuntimeError_integration_failed
    end.

Definition calculate_quenching_factor (self : BirksCalculator)
    (initial_energy_mev kb_mm_mev : Q) : result Q :=
  if Qle_bool initial_energy_mev 0 then Ok 0
  else
    visible_energy <- calculate_visible_energy self initial_energy_mev kb_mm_mev ;;
    Ok (visible_energy / initial_energy_mev).

(** The closure [objective] of [solve_kb]. *)
Definition objective (self : BirksCalculator)
    (initial_energy_mev observed_energy_mev kb : Q) : result Q :=
  calc_energy <- calculate_visible_energy self initial_energy_mev kb ;;
  Ok (calc_energy - observed_energy_mev).

(** Lines 213-229: the upper end of the bracket handed to the root
    finder. *)
Definition check_bracket (objective : Q -> result Q) (f_min f_max kb_max : Q)
    : result Q :=
  if Qlt_bool 0 (f_min * f_max) then
    if Qlt_bool 0 f_max then
      let kb_max := 2 in
      f_max <- objective kb_max ;;
      if Qlt_bool 0 f_max then Raise ValueError_no_solution_max_kb
      else Ok kb_max
    else Raise ValueError_no_solution_in_range
  else Ok kb_max.

Definition solve_kb (self : BirksCalculator)
    (initial_energy_mev observed_energy_mev kb_min kb_max : Q) : result Q :=
  if Qle_bool initial_energy_mev 0 then Raise ValueError_initial_not_positive
  else if Qle_bool observed_energy_mev 0 then Raise ValueError_observed_not_positive
  else if Qlt_bool initial_energy_mev observed_energy_mev
  then Raise ValueError_observed_exceeds_initial
  else if Qlt_bool (Qabs (observed_energy_mev - initial_energy_mev)) 0.000000001
  then Ok 0
  else
    let objective := objective self initial_energy_mev observed_energy_mev in
    f_min <- objective kb_min ;;
    f_max <- objective kb_max ;;
    kb_max <- check_bracket objective f_min f_max kb_max ;;
    match brentq objective kb_min kb_max with
    | Some kb_solution => Ok kb_solution
    | None => Raise RuntimeError_root_finding_failed
    end.

(** [solve_kb] with the default bracket. *)
Definition solve_kb_default (self : BirksCalculator)
    (initial_energy_mev observed_energy_mev : Q) : result Q :=
  solve_kb self initial_energy_mev observed_energy_mev 0 0.5.

End Numerics.

(** *** Integrators and root finders to run the model with *)

Fixpoint sum_nodes (f : Q -> Q) (a h : Q) (i n : nat) : Q :=
  match n with
  | O => 0
  | S n' => f (a + (inject_Z (Z.of_nat i) + (1 # 2)) * h) + sum_nodes f a h (S i) n'
  end.

(** The composite midpoint rule on [n] panels. *)
Definition midpoint_rule (n : positive) (f : Q -> Q) (a b : Q) : option Q :=
  let h := (b - a) / inject_Z (Zpos n) in
  Some (h * sum_nodes f a h 0 (Pos.to_nat n)).

Fixpoint bisect (n : nat) (f : Q -> result Q) (a b fa : Q) : option Q :=
  match n with
  | O => Some a
  | S n' =>
      let m := (a + b) / 2 in
      match f m with
      | Raise _ => None
      | Ok fm =>
          if Qle_bool (fa * fm) 0 then bisect n' f a m fa
          else bisect n' f m b fm
      end
  end.

(** How many halvings bring a bracket of width [w] below [1e-8]. *)
Definition halvings (w : Q) : nat :=
  Z.to_nat (Z.log2_up (Qceiling (w * 100000000))).

(** Bisection down to a bracket of width [1e-8]. *)
Definition bisection (f : Q -> result Q) (a b : Q) : option Q :=
  match f a, f b with
  | Ok fa, Ok fb =>
      if Qlt_bool 0 (fa * fb) then None
      else bisect (halvings (b - a)) f a b fa
  | _, _ => None
  end.

(** *** What is assumed of the library routines

    [quad] returns an approximation, to [1e-6], of the definite
    integral.  The properties below are those of the integral itself:
    theorems that assume them describe the program up to the error of
    the quadrature.  [midpoint_rule n] has them for every [n]. *)

Definition quad_type : Type := (Q -> Q) -> Q -> Q -> option Q.
Definition brentq_type : Type := (Q -> result Q) -> Q -> Q -> option Q.

Record integral_laws (quad : quad_type) : Prop := {
  (** the mean of the integrand lies between its bounds *)
  quad_lower : forall f a b lo v,
    a <= b -> (forall x, a <= x <= b -> lo <= f x) ->
    quad f a b = Some v -> lo * (b - a) <= v;
  quad_upper : forall f a b hi v,
    a <= b -> (forall x, a <= x <= b -> f x <= hi) ->
    quad f a b = Some v -> v <= hi * (b - a);
  (** a smaller integrand has a smaller integral *)
  quad_monotone : forall f g a b u v,
    a <= b -> (forall x, a <= x <= b -> f x <= g x) ->
    quad f a b = Some u -> quad g a b = Some v -> u <= v;
  (** strictly so when it is strictly smaller inside the interval *)
  quad_strict : forall f g a b u v,
    a < b -> (forall x, a < x < b -> f x < g x) ->
    quad f a b = Some u -> quad g a b = Some v -> u < v
}.

(** The call returns: SciPy's [quad] reports a quadrature that did not
    converge by a warning, and raises only if the integrand does. *)
Definition quad_total (quad : quad_type) : Prop :=
  forall f a b, quad f a b <> None.

(** The visible energy as a function of [kB], where [quad] returns. *)
Definition visible (quad : quad_type) (self : BirksCalculator) (E kb : Q) : Q :=
  match quad (integrand self kb) 0 E with
  | Some v => v
  | None => 0
  end.

Definition xtol : Q := 0.00000001.
Definition rtol : Q := 0.00000001.

(** On a bracket over which the objective is defined and changes sign,
    [brentq] returns a point of a sub-bracket on which the sign still
    changes and which is no wider than the tolerance. *)
Definition brentq_brackets (brentq : brentq_type) : Prop :=
  forall f g a b,
    a <= b -> (forall x, a <= x <= b -> f x = Ok (g x)) ->
    g a * g b <= 0 ->
    exists r u v,
      brentq f a b = Some r /\
      a <= u /\ u <= r /\ r <= v /\ v <= b /\
      g u * g v <= 0 /\
      v - u <= xtol + rtol * Qabs r.

(** *** Curves to run the model on *)

(** The scenario of the specification. *)
Definition scenario_frame : frame := [mkRow 0 0; mkRow 1 10; mkRow 2 8].

(** A peak whose falling side, extended past the last sample, crosses
    zero at 2 MeV. *)
Definition peak_frame : frame := [mkRow 1 2; mkRow 2 0].

Definition calculator_of (df : frame) : BirksCalculator :=
  match init df with
  | Ok self => self
  | Raise _ => mkCalc [] [] 0 0
  end.

End Physics.

(** ** srim_parser.py: [validate_dataframe] *)

Module Validation.

Local Open Scope Q_scope.

(** The frame [validate_dataframe] receives can be any frame: its
    columns are named, in order, each with its values.  The frames of the
    parser and of the presets have the two columns of [of_rows]. *)
Definition DataFrame : Type := list (string * list Q).

Definition of_rows (rows : frame) : DataFrame :=
  [ ("Energy_MeV"%string, map Energy_MeV rows);
    ("dE_dx"%string, map dE_dx rows) ].

(** [col in df.columns] *)
Definition has_column (col : string) (df : DataFrame) : bool :=
  existsb (fun c => String.eqb col (fst c)) df.

(** [df[col]], for a column of the frame. *)
Fixpoint column (col : string) (df : DataFrame) : list Q :=
  match df with
  | [] => []
  | (name, values) :: df' =>
      if String.eqb col name then values else column col df'
  end.

(** [len(df)]: the number of rows. *)
Definition len (df : DataFrame) : nat :=
  match df with
  | [] => O
  | (_, values) :: _ => List.length values
  end.

Definition qmin (x y : Q) : Q := if Qle_bool x y then x else y.
Definition qmax (x y : Q) : Q := if Qle_bool x y then y else x.

(** [series.min()] and [series.max()].  Of an empty series they are
    [nan], which compares false with everything; here 0, and the only
    comparison made of them is [< 0]. *)
Definition series_min (values : list Q) : Q :=
  match values with
  | [] => 0
  | x :: values' => fold_left qmin values' x
  end.

Definition series_max (values : list Q) : Q :=
  match values with
  | [] => 0
  | x :: values' => fold_left qmax values' x
  end.

(** One constructor per [raise] of [validate_dataframe]. *)
Inductive validation_error : Type :=
  | ValueError_missing_columns   (* srim_parser.py, line 186 *)
  | ValueError_empty_frame       (* srim_parser.py, line 189 *)
  | ValueError_negative_energy   (* srim_parser.py, line 192 *)
  | ValueError_negative_dedx.    (* srim_parser.py, line 195 *)

Definition required_columns : list string := ["Energy_MeV"%string; "dE_dx"%string].

(** The value returned, [True], or the error raised. *)
Definition validate_dataframe (df : DataFrame) : validation_error + bool :=
  if negb (forallb (fun col => has_column col df) required_columns)
  then inl ValueError_missing_columns
  else if (len df =? 0)%nat then inl ValueError_empty_frame
  else if Qlt_bool (series_min (column "Energy_MeV" df)) 0
  then inl ValueError_negative_energy
  else if Qlt_bool (series_min (column "dE_dx" df)) 0
  then inl ValueError_negative_dedx
  else inr true.

End Validation.

(** ** app.py: what the dashboard computes *)

Module App.

Import Validation Physics.

Local Open Scope Q_scope.

(** Lines 116-126: the frame of an uploaded file, or [None] when the
    parser or the validation raised and the script stopped. *)
Definition uploaded_frame (content : string) : option frame :=
  match SrimParser.parse_srim_text content with
  | Ok df =>
      match validate_dataframe (of_rows df) with
      | inr _ => Some df
      | inl _ => None
      end
  | Raise _ => None
  end.

(** The upper bound of both energy inputs:
    [float(df['Energy_MeV'].max())]. *)
Definition energy_max_value (df : frame) : Q :=
  series_max (map Energy_MeV df).

Section Handlers.

Variable quad : quad_type.
Variable brentq : brentq_type.

(** Lines 188-222, the button of the first tab: the three values shown,
    visible energy in keVee, quenching factor and energy loss in
    percent. *)
Definition forward_calculation (calculator : BirksCalculator)
    (particle_energy kb_um_mev : Q) : result (Q * Q * Q) :=
  let kb_mm_mev := kb_um_mev / 1000 in
  visible_energy_mev <-
    calculate_visible_energy quad calculator particle_energy kb_mm_mev ;;
  quenching_factor <-
    calculate_quenching_factor quad calculator particle_energy kb_mm_mev ;;
  Ok (visible_energy_mev * 1000, quenching_factor,
      (1 - quenching_factor) * 100).

(** Lines 264-315, the button of the second tab: the Birks constant in
    um/MeV and in mm/MeV, the quenching factor of the verification and
    the error of the verification in percent. *)
Definition inverse_solver (calculator : BirksCalculator)
    (particle_energy_inv observed_energy_kev : Q) : result (Q * Q * Q * Q) :=
  let observed_energy_mev := observed_energy_kev / 1000 in
  kb_mm_mev <-
    solve_kb_default quad brentq calculator particle_energy_inv
      observed_energy_mev ;;
  let kb_um_mev_result := kb_mm_mev * 1000 in
  verify_energy <-
    calculate_visible_energy quad calculator particle_energy_inv kb_mm_mev ;;
  let quenching_factor := verify_energy / particle_energy_inv in
  let error_percent :=
    Qabs (verify_energy * 1000 - observed_energy_kev)
    / observed_energy_kev * 100 in
  Ok (kb_um_mev_result, kb_mm_mev, quenching_factor, error_percent).

End Handlers.

End App.

(** * Properties *)

(** ** Strings *)

Module PyStrFacts.

Import PyStr.

Lemma all_chars_app (p : ascii -> bool) (s1 s2 : string) :
  all_chars p (s1 ++ s2) = all_chars p s1 && all_chars p s2.
Proof.
  induction s1 as [|c s1 IH]; simpl; [reflexivity|].
  now rewrite IH, andb_assoc.
Qed.

Lemma rstrip_empty (s : string) :
  rstrip s = EmptyString <-> all_chars isspace s = true.
Proof.
  induction s as [|c s IH]; simpl; [tauto|].
  destruct (rstrip s) as [|c' r] eqn:Er; simpl.
  - destruct (isspace c); simpl; split; try discriminate; intros _;
      [now apply IH | reflexivity].
  - split; [discriminate|].
    intros H. apply andb_true_iff in H as [_ H].
    apply IH in H. discriminate.
Qed.

Lemma lstrip_empty (s : string) :
  lstrip s = EmptyString <-> all_chars isspace s = true.
Proof.
  induction s as [|c s IH]; simpl; [tauto|].
  destruct (isspace c); simpl; [exact IH|].
  split; discriminate.
Qed.

Lemma all_space_rstrip (s : string) :
  all_chars isspace (rstrip s) = all_chars isspace s.
Proof.
  induction s as [|c s IH]; simpl; [reflexivity|].
  destruct (is_empty (rstrip s) && isspace c) eqn:E; simpl.
  - apply andb_true_iff in E as [E1 E2].
    destruct (rstrip s) eqn:Er; [|discriminate].
    apply rstrip_empty in Er. now rewrite E2, Er.
  - now rewrite IH.
Qed.

(** [s.strip()] is empty exactly when [s] is blank. *)
Lemma strip_empty (s : string) :
  is_empty (strip s) = all_chars isspace s.
Proof.
  unfold strip.
  destruct (all_chars isspace s) eqn:E.
  - rewrite <- all_space_rstrip in E. apply lstrip_empty in E.
    now rewrite E.
  - destruct (lstrip (rstrip s)) eqn:El; [|reflexivity].
    apply lstrip_empty in El. rewrite all_space_rstrip in El. congruence.
Qed.

Lemma append_assoc (a b c : string) : a ++ (b ++ c) = (a ++ b) ++ c.
Proof.
  induction a as [|x a IH]; simpl; [reflexivity|]. now rewrite IH.
Qed.

Lemma prefix_drop (p s : string) :
  prefix p s = true -> s = p ++ drop (String.length p) s.
Proof.
  revert s. induction p as [|c p IH]; intros s H; simpl.
  - now destruct s.
  - destruct s as [|c' s]; simpl in H; [discriminate|].
    destruct (ascii_dec c c') as [->|]; [|discriminate].
    simpl. f_equal. now apply IH.
Qed.

End PyStrFacts.

(** ** The matcher *)

Module ReFacts.

Import PyStr Re PyStrFacts.

Lemma many_sound cls (k : string -> option (list string)) s :
  forall min piece r,
    many cls min k s = Some (piece, r) ->
    accepts (Many cls min) piece /\
    exists rest, s = piece ++ rest /\ k rest = Some r.
Proof.
  induction s as [|c s IH]; intros min piece r H; simpl in H.
  - destruct min; [|discriminate].
    destruct (k EmptyString) eqn:Ek; [|discriminate].
    injection H as <- <-. simpl. repeat split; auto.
    exists EmptyString. auto.
  - assert (Hstop :
      match min with
      | O => option_map (pair EmptyString) (k (String c s))
      | S _ => None
      end = Some (piece, r) ->
      accepts (Many cls min) piece /\
      exists rest, String c s = piece ++ rest /\ k rest = Some r).
    { destruct min; [|discriminate].
      destruct (k (String c s)) eqn:Ek; [|discriminate].
      intros E. injection E as <- <-. simpl. repeat split; auto.
      exists (String c s). auto. }
    destruct (cls c) eqn:Ec; [|now apply Hstop].
    destruct (many cls (pred min) k s) as [[piece' r']|] eqn:Em;
      [|now apply Hstop].
    injection H as <- <-.
    apply IH in Em as [[Hall Hlen] [rest [-> Hk]]].
    simpl. rewrite Ec, Hall. repeat split; [lia|].
    exists rest. auto.
Qed.

(** A match splits a prefix of the text into one accepted piece per
    atom. *)
Lemma re_match_sound (p : pattern) :
  forall s pieces,
    re_match p s = Some pieces ->
    Forall2 (fun ga piece => accepts (snd ga) piece) p pieces /\
    exists rest, s = join pieces ++ rest.
Proof.
  induction p as [|[g a] p IH]; intros s pieces H; simpl in H.
  - injection H as <-. split; [constructor|]. now exists s.
  - destruct a as [cls min|cls|l].
    + destruct (many cls min (re_match p) s) as [[piece r]|] eqn:Em;
        [|discriminate].
      injection H as <-.
      apply many_sound in Em as [Hacc [rest [-> Hk]]].
      apply IH in Hk as [HF [rest' ->]].
      split; [now constructor|].
      exists rest'. simpl. now rewrite <- append_assoc.
    + assert (Hskip :
        cons_piece EmptyString (re_match p s) = Some pieces ->
        Forall2 (fun ga piece => accepts (snd ga) piece) ((g, Opt cls) :: p) pieces /\
        exists rest, s = join pieces ++ rest).
      { unfold cons_piece. destruct (re_match p s) eqn:Er; [|discriminate].
        intros E. injection E as <-.
        apply IH in Er as [HF [rest ->]].
        split; [constructor; simpl; auto|].
        now exists rest. }
      destruct s as [|c s]; [now apply Hskip|].
      destruct (cls c) eqn:Ec; [|now apply Hskip].
      destruct (re_match p s) eqn:Er; [|now apply Hskip].
      injection H as <-.
      apply IH in Er as [HF [rest ->]].
      split; [constructor; simpl; eauto|].
      now exists rest.
    + destruct (prefix l s) eqn:Ep; [|discriminate].
      unfold cons_piece in H.
      destruct (re_match p (drop (String.length l) s)) eqn:Er; [|discriminate].
      injection H as <-.
      apply IH in Er as [HF [rest Hrest]].
      split; [constructor; simpl; auto|].
      exists rest. simpl. rewrite <- append_assoc, <- Hrest.
      now apply prefix_drop.
Qed.

End ReFacts.

(** ** Sorting frames *)

Lemma insert_row_perm (r : row) (df : frame) :
  Permutation (r :: df) (insert_row r df).
Proof.
  induction df as [|x df IH]; simpl; [reflexivity|].
  destruct (Qle_bool (Energy_MeV r) (Energy_MeV x)); [reflexivity|].
  rewrite perm_swap. now constructor.
Qed.

Lemma sort_values_perm (df : frame) : Permutation df (sort_values df).
Proof.
  induction df as [|r df IH]; simpl; [constructor|].
  rewrite <- insert_row_perm. now constructor.
Qed.

Lemma insert_row_hd (r x : row) (df : frame) :
  energy_le x r -> HdRel energy_le x df -> HdRel energy_le x (insert_row r df).
Proof.
  intros Hxr Hhd. destruct df as [|y df]; simpl; [now constructor|].
  destruct (Qle_bool (Energy_MeV r) (Energy_MeV y)); constructor; auto.
  now inversion Hhd.
Qed.

Lemma insert_row_sorted (r : row) (df : frame) :
  Sorted energy_le df -> Sorted energy_le (insert_row r df).
Proof.
  induction 1 as [|x df Hs IH Hhd]; simpl.
  - repeat constructor.
  - destruct (Qle_bool (Energy_MeV r) (Energy_MeV x)) eqn:E.
    + apply Qle_bool_iff in E. repeat constructor; auto.
    + constructor; [exact IH|].
      apply insert_row_hd; [|exact Hhd].
      unfold energy_le. destruct (Qlt_le_dec (Energy_MeV x) (Energy_MeV r)) as [H|H].
      * now apply Qlt_le_weak.
      * apply Qle_bool_iff in H. congruence.
Qed.

Lemma sort_values_sorted (df : frame) : Sorted energy_le (sort_values df).
Proof.
  induction df as [|r df IH]; simpl; [constructor|].
  now apply insert_row_sorted.
Qed.

Lemma sort_values_length (df : frame) :
  List.length (sort_values df) = List.length df.
Proof. symmetry. apply Permutation_length, sort_values_perm. Qed.

(** ** The parser *)

Module ParserFacts.

Import PyStr Re SrimParser PyStrFacts ReFacts.

Lemma append_empty_r (s : string) : s ++ EmptyString = s.
Proof. induction s as [|c s IH]; simpl; [reflexivity|]. now rewrite IH. Qed.

Lemma char_in_kMGT (c : ascii) :
  char_in "kMGT" c = true -> c = "k"%char \/ c = "M"%char \/ c = "G"%char \/ c = "T"%char.
Proof.
  unfold char_in. simpl.
  destruct (ascii_dec c "k") as [->|_]; [tauto|].
  destruct (ascii_dec c "M") as [->|_]; [tauto|].
  destruct (ascii_dec c "G") as [->|_]; [tauto|].
  destruct (ascii_dec c "T") as [->|_]; [tauto|].
  discriminate.
Qed.

(** What a match of [line_pattern] looks like: eight pieces, the second
    a number, the fourth and fifth a unit. *)
Lemma line_pattern_shape (line : string) (m : list string) :
  re_match line_pattern line = Some m ->
  exists p0 p1 p2 p3 p4 p5 p6 p7 rest,
    m = [p0; p1; p2; p3; p4; p5; p6; p7] /\
    line = p0 ++ p1 ++ p2 ++ p3 ++ p4 ++ p5 ++ p6 ++ p7 ++ rest /\
    all_chars isspace p0 = true /\
    all_chars cls_number p1 = true /\ (1 <= String.length p1)%nat /\
    (p3 = EmptyString \/
     exists c, char_in "kMGT" c = true /\ p3 = String c EmptyString) /\
    p4 = "eV".
Proof.
  intros H. apply re_match_sound in H as [HF [rest Hrest]].
  unfold line_pattern in HF.
  repeat match goal with
         | H : Forall2 _ (_ :: _) _ |- _ => inversion H; subst; clear H
         | H : Forall2 _ [] _ |- _ => inversion H; subst; clear H
         end.
  simpl in *.
  repeat match goal with H : _ /\ _ |- _ => destruct H end.
  do 8 eexists. exists rest.
  repeat split; try eassumption; try reflexivity.
  rewrite append_empty_r.
  repeat rewrite <- append_assoc. reflexivity.
Qed.

Lemma group_1_line (p0 p1 p2 p3 p4 p5 p6 p7 : string) :
  group 1 line_pattern [p0; p1; p2; p3; p4; p5; p6; p7] = p1.
Proof. simpl. apply append_empty_r. Qed.

Lemma group_2_line (p0 p1 p2 p3 p4 p5 p6 p7 : string) :
  group 2 line_pattern [p0; p1; p2; p3; p4; p5; p6; p7] = p3 ++ p4.
Proof. simpl. now rewrite append_empty_r. Qed.

(** The second group of a match is one of the five units. *)
Lemma line_pattern_unit (line : string) (m : list string) :
  re_match line_pattern line = Some m ->
  In (group 2 line_pattern m) units.
Proof.
  intros H.
  apply line_pattern_shape in H
    as (p0 & p1 & p2 & p3 & p4 & p5 & p6 & p7 & rest & Hm & _ & _ & _ & _ & H3 & H4).
  subst m p4. rewrite group_2_line.
  destruct H3 as [->|[c [Hc ->]]]; simpl; [tauto|].
  apply char_in_kMGT in Hc as [-> | [-> | [-> | ->]]]; tauto.
Qed.

(** On each of the five units the converter multiplies by the factor
    of the table. *)
Lemma convert_unit (value : Q) (u : string) :
  In u units ->
  exists factor,
    lookup u unit_table = Some factor /\
    _convert_to_mev value u = Ok (value * factor)%Q.
Proof.
  unfold units. simpl.
  intros [<-|[<-|[<-|[<-|[<-|[]]]]]]; eexists; split; reflexivity.
Qed.

Lemma py_float_raises (text : string) (e : exn) :
  py_float text = Raise e -> e = ValueError_float text.
Proof.
  unfold py_float.
  repeat match goal with
         | |- context [let '(_, _) := ?x in _] => destruct x
         | |- context [match ?x with _ => _ end] => destruct x
         | |- context [if ?x then _ else _] => destruct x
         end; congruence.
Qed.

Lemma line_pattern_not_blank (line : string) (m : list string) :
  re_match line_pattern line = Some m -> is_empty (strip line) = false.
Proof.
  intros H.
  apply line_pattern_shape in H
    as (p0 & p1 & p2 & p3 & p4 & p5 & p6 & p7 & rest & _ & -> & _ & H1 & Hlen & _).
  rewrite strip_empty, !all_chars_app.
  destruct p1 as [|c p1]; simpl in Hlen; [lia|].
  simpl in H1. apply andb_true_iff in H1 as [Hc _].
  assert (Hs : isspace c = false).
  { revert Hc. unfold cls_number, char_in, isdigit, isspace, code.
    destruct c as [[] [] [] [] [] [] [] []]; vm_compute; congruence. }
  simpl. rewrite Hs. simpl. now rewrite andb_false_r.
Qed.

Lemma parse_line_matched (line : string) (m : list string) (v d : Q) :
  re_match line_pattern line = Some m ->
  py_float (group 1 line_pattern m) = Ok v ->
  py_float (group 3 line_pattern m) = Ok d ->
  exists factor,
    lookup (group 2 line_pattern m) unit_table = Some factor /\
    parse_line line = Ok (Some (mkRow (v * factor) d)).
Proof.
  intros Hm Hv Hd.
  destruct (convert_unit v _ (line_pattern_unit _ _ Hm)) as [factor [Hf Hc]].
  exists factor. split; [exact Hf|].
  unfold parse_line.
  rewrite (line_pattern_not_blank _ _ Hm), Hm.
  rewrite Hv. cbn [bind]. rewrite Hd. cbn [bind]. now rewrite Hc.
Qed.

Lemma parse_line_unit_known (line : string) (u : string) :
  parse_line line <> Raise (ValueError_unknown_energy_unit u).
Proof.
  unfold parse_line.
  destruct (is_empty (strip line)); [discriminate|].
  destruct (re_match line_pattern line) as [m|] eqn:Hm; [|discriminate].
  destruct (py_float (group 1 line_pattern m)) as [v|e] eqn:Hv; cbn [bind].
  2:{ apply py_float_raises in Hv. subst e. discriminate. }
  destruct (py_float (group 3 line_pattern m)) as [d|e] eqn:Hd; cbn [bind].
  2:{ apply py_float_raises in Hd. subst e. discriminate. }
  destruct (convert_unit v _ (line_pattern_unit _ _ Hm)) as [factor [_ ->]].
  discriminate.
Qed.

Lemma parse_lines_unit_known (lines : list string) (u : string) :
  parse_lines lines <> Raise (ValueError_unknown_energy_unit u).
Proof.
  induction lines as [|line rest IH]; simpl; [discriminate|].
  destruct (parse_line line) as [r|e] eqn:Hl; cbn [bind].
  - destruct (parse_lines rest) as [rows|e]; cbn [bind]; [discriminate|exact IH].
  - intros H. injection H as ->. exact (parse_line_unit_known _ _ Hl).
Qed.

(** C10: every unit text captured by the data-row pattern is one of
    eV, keV, MeV, GeV, TeV, its lower-cased form is a key of the
    conversion table, and so [parse_srim_text] never raises the
    "Unknown energy unit" error, whatever the input text. *)
Theorem unknown_unit_unreachable :
  (forall line m,
      re_match line_pattern line = Some m ->
      In (group 2 line_pattern m) units /\
      exists factor,
        lookup (lower (strip (group 2 line_pattern m))) conversion_factors
        = Some factor) /\
  (forall content u,
      parse_srim_text content <> Raise (ValueError_unknown_energy_unit u)).
Proof.
  split.
  - intros line m Hm. pose proof (line_pattern_unit _ _ Hm) as Hu.
    split; [exact Hu|].
    revert Hu. generalize (group 2 line_pattern m). unfold units. simpl.
    intros u [<-|[<-|[<-|[<-|[<-|[]]]]]]; eexists; reflexivity.
  - intros content u. unfold parse_srim_text.
    destruct (match header_start _ with Some s => _ | None => _ end)
      as [[s|] e]; [|discriminate].
    destruct (parse_lines _) as [rows|err] eqn:Hp; cbn [bind].
    + destruct (List.length rows =? 0)%nat; discriminate.
    + intros H. injection H as ->. exact (parse_lines_unit_known _ _ Hp).
Qed.

(** C9: whenever [parse_srim_text] returns a table, the table has at
    least one row and its rows are in non-decreasing order of
    [Energy_MeV], whatever the order of the rows of the text. *)
Theorem parse_output_sorted (content : string) (df : frame) :
  parse_srim_text content = Ok df ->
  df <> [] /\ Sorted energy_le df.
Proof.
  unfold parse_srim_text.
  destruct (match header_start _ with Some s => _ | None => _ end)
    as [[s|] e]; [|discriminate].
  destruct (parse_lines _) as [rows|err]; cbn [bind]; [|discriminate].
  destruct (List.length rows =? 0)%nat eqn:Hn; [discriminate|].
  intros H. injection H as <-. split.
  - intros Hnil. apply (f_equal (@List.length row)) in Hnil.
    rewrite sort_values_length in Hnil. simpl in Hnil.
    rewrite Hnil in Hn. discriminate.
  - apply sort_values_sorted.
Qed.

Lemma parse_output_sorted_witness :
  parse_srim_text shuffled_text = Ok shuffled_frame /\
  shuffled_frame <> [] /\ Sorted energy_le shuffled_frame.
Proof.
  assert (H : parse_srim_text shuffled_text = Ok shuffled_frame)
    by (vm_compute; reflexivity).
  split; [exact H|].
  exact (parse_output_sorted shuffled_text shuffled_frame H).
Defined.

(** C7: the unit conversion of the parser is exact.  For every line
    matched by the data-row pattern, with numeric value [v], unit [u]
    and stopping power [d], the row extracted is [(v * factor u, d)]
    where [factor] is eV -> 1e-6, keV -> 1e-3, MeV -> 1, GeV -> 1e3,
    TeV -> 1e6.  In particular the value 500.0 with the unit keV gives
    the energy 0.5 MeV, and the row "1.000 MeV   5.234E+01" gives
    (1.0, 52.34), alone and in the scenario of the specification. *)
Theorem parser_unit_conversion_exact :
  (forall line m v d,
      re_match line_pattern line = Some m ->
      py_float (group 1 line_pattern m) = Ok v ->
      py_float (group 3 line_pattern m) = Ok d ->
      exists factor,
        lookup (group 2 line_pattern m) unit_table = Some factor /\
        parse_line line = Ok (Some (mkRow (v * factor) d))) /\
  (exists r,
      parse_line "500.0 keV   1.0" = Ok (Some r) /\
      Energy_MeV r == 0.5) /\
  (exists r,
      parse_line "1.000 MeV   5.234E+01" = Ok (Some r) /\
      Energy_MeV r == 1.0 /\ dE_dx r == 52.34) /\
  (exists r,
      parse_srim_text scenario_text = Ok [r] /\
      Energy_MeV r == 1.0 /\ dE_dx r == 52.34).
Proof.
  split; [exact parse_line_matched|].
  repeat split; eexists; repeat split;
    try (vm_compute; reflexivity); vm_compute; reflexivity.
Qed.

Lemma parser_unit_conversion_witness :
  exists factor,
    lookup "keV" unit_table = Some factor /\
    parse_line "  500.0 keV   7.5E+00  2.0E-03"
    = Ok (Some (mkRow ((5000 # 10) * factor) (75 # 10))).
Proof.
  exact (proj1 parser_unit_conversion_exact
           "  500.0 keV   7.5E+00  2.0E-03"
           ["  "; "500.0"; " "; "k"; "eV"; "   "; "7.5E+00"; "  "]
           (5000 # 10) (75 # 10) eq_refl eq_refl eq_refl).
Defined.

End ParserFacts.

(** ** The quenching model *)

Module PhysicsFacts.

Import Physics.

Local Open Scope Q_scope.

Lemma Qlt_bool_iff (x y : Q) : Qlt_bool x y = true <-> x < y.
Proof.
  unfold Qlt_bool. rewrite negb_true_iff. split.
  - intros H. apply Qnot_le_lt. intros Hle.
    apply Qle_bool_iff in Hle. congruence.
  - intros H. destruct (Qle_bool y x) eqn:E; [|reflexivity].
    apply Qle_bool_iff in E. lra.
Qed.

Lemma Qlt_bool_false (x y : Q) : Qlt_bool x y = false <-> y <= x.
Proof.
  unfold Qlt_bool. rewrite negb_false_iff. apply Qle_bool_iff.
Qed.

Lemma Qle_bool_false (x y : Q) : Qle_bool x y = false <-> y < x.
Proof.
  split.
  - intros H. apply Qnot_le_lt. intros Hle.
    apply Qle_bool_iff in Hle. congruence.
  - intros H. destruct (Qle_bool x y) eqn:E; [|reflexivity].
    apply Qle_bool_iff in E. lra.
Qed.

(** Case analysis on the comparisons of the source. *)
Ltac cases_on_tests :=
  repeat match goal with
         | H : Qle_bool _ _ = true |- _ => apply Qle_bool_iff in H
         | H : Qle_bool _ _ = false |- _ => apply Qle_bool_false in H
         | H : Qlt_bool _ _ = true |- _ => apply Qlt_bool_iff in H
         | H : Qlt_bool _ _ = false |- _ => apply Qlt_bool_false in H
         end.

(** *** The integrand *)

Lemma Qinv_le_1 (d : Q) : 1 <= d -> 1 / d <= 1.
Proof.
  intros H. apply Qle_shift_div_r; lra.
Qed.

Lemma Qdiv_antitone (d1 d2 : Q) : 0 < d1 -> d1 <= d2 -> 1 / d2 <= 1 / d1.
Proof.
  intros H1 H2.
  apply Qle_shift_div_l; [lra|].
  assert (E : 1 / d2 * d1 == d1 / d2) by (field; lra).
  rewrite E. apply Qle_shift_div_r; lra.
Qed.

Lemma Qdiv_strictly_antitone (d1 d2 : Q) : 0 < d1 -> d1 < d2 -> 1 / d2 < 1 / d1.
Proof.
  intros H1 H2.
  apply Qlt_shift_div_l; [lra|].
  assert (E : 1 / d2 * d1 == d1 / d2) by (field; lra).
  rewrite E. apply Qlt_shift_div_r; lra.
Qed.

Lemma integrand_nonneg (self : BirksCalculator) (kb E : Q) :
  0 <= integrand self kb E.
Proof.
  unfold integrand.
  destruct (Qle_bool (1 + kb * get_dedx self E) 0) eqn:T; [lra|].
  cases_on_tests. apply Qle_shift_div_l; lra.
Qed.

(** With [kB = 0] the integrand is 1, whatever the stopping power. *)
Lemma integrand_kb_0 (self : BirksCalculator) (E : Q) :
  integrand self 0 E == 1.
Proof.
  unfold integrand.
  assert (D : 1 + 0 * get_dedx self E == 1) by ring.
  destruct (Qle_bool (1 + 0 * get_dedx self E) 0) eqn:T; cases_on_tests.
  - lra.
  - rewrite D. field.
Qed.

Lemma integrand_le_1 (self : BirksCalculator) (kb E : Q) :
  0 <= kb -> 0 <= get_dedx self E -> integrand self kb E <= 1.
Proof.
  intros Hk Hd. unfold integrand.
  pose proof (Qmult_le_0_compat _ _ Hk Hd) as Hp.
  destruct (Qle_bool (1 + kb * get_dedx self E) 0) eqn:T; [lra|].
  apply Qinv_le_1. lra.
Qed.

(** Where the stopping power is not negative, a larger [kB] gives a
    smaller integrand. *)
Lemma integrand_antitone (self : BirksCalculator) (kb1 kb2 E : Q) :
  0 <= kb1 -> kb1 <= kb2 -> 0 <= get_dedx self E ->
  integrand self kb2 E <= integrand self kb1 E.
Proof.
  intros Hk H12 Hd. unfold integrand.
  pose proof (Qmult_le_0_compat _ _ Hk Hd) as Hp.
  assert (Hm : kb1 * get_dedx self E <= kb2 * get_dedx self E)
    by (apply Qmult_le_compat_r; assumption).
  destruct (Qle_bool (1 + kb2 * get_dedx self E) 0) eqn:T2;
    destruct (Qle_bool (1 + kb1 * get_dedx self E) 0) eqn:T1;
    cases_on_tests; try lra.
  apply Qdiv_antitone; lra.
Qed.

Lemma integrand_strictly_antitone (self : BirksCalculator) (kb1 kb2 E : Q) :
  0 <= kb1 -> kb1 < kb2 -> 0 < get_dedx self E ->
  integrand self kb2 E < integrand self kb1 E.
Proof.
  intros Hk H12 Hd. unfold integrand.
  assert (Hp : 0 <= kb1 * get_dedx self E)
    by (apply Qmult_le_0_compat; lra).
  assert (Hm : kb1 * get_dedx self E < kb2 * get_dedx self E)
    by (apply Qmult_lt_compat_r; assumption).
  destruct (Qle_bool (1 + kb2 * get_dedx self E) 0) eqn:T2;
    destruct (Qle_bool (1 + kb1 * get_dedx self E) 0) eqn:T1;
    cases_on_tests; try lra.
  apply Qdiv_strictly_antitone; lra.
Qed.

(** *** The midpoint rule is an integrator *)

Lemma node_bounds (a b N t : Q) :
  0 < N -> 0 < t -> t < N -> a <= b ->
  a <= a + t * ((b - a) / N) <= b.
Proof.
  intros HN Ht HtN Hab.
  set (h := (b - a) / N).
  assert (Hh : h * N == b - a) by (unfold h; field; lra).
  assert (H0 : 0 <= h) by (apply Qle_shift_div_l; lra).
  assert (H1 : 0 <= t * h) by (apply Qmult_le_0_compat; lra).
  assert (H2 : t * h <= N * h) by (apply Qmult_le_compat_r; lra).
  lra.
Qed.

Lemma node_bounds_strict (a b N t : Q) :
  0 < N -> 0 < t -> t < N -> a < b ->
  a < a + t * ((b - a) / N) < b.
Proof.
  intros HN Ht HtN Hab.
  set (h := (b - a) / N).
  assert (Hh : h * N == b - a) by (unfold h; field; lra).
  assert (H0 : 0 < h) by (apply Qlt_shift_div_l; lra).
  assert (H1 : 0 < t * h) by (apply Qmult_lt_0_compat; lra).
  assert (H2 : t * h < N * h) by (apply Qmult_lt_compat_r; lra).
  lra.
Qed.

Lemma node_index (n : positive) (j : nat) :
  (j < Pos.to_nat n)%nat ->
  0 < inject_Z (Z.of_nat j) + (1 # 2) < inject_Z (Zpos n).
Proof.
  intros Hj.
  assert (H0 : inject_Z 0 <= inject_Z (Z.of_nat j))
    by (rewrite <- Zle_Qle; lia).
  assert (H1 : inject_Z (Z.of_nat j + 1) <= inject_Z (Zpos n))
    by (rewrite <- Zle_Qle; lia).
  rewrite inject_Z_plus in H1.
  change (inject_Z 0) with 0 in H0. change (inject_Z 1) with 1 in H1.
  lra.
Qed.

Lemma node_inside (n : positive) (a b : Q) (j : nat) :
  a <= b -> (j < Pos.to_nat n)%nat ->
  a <= a + (inject_Z (Z.of_nat j) + (1 # 2)) * ((b - a) / inject_Z (Zpos n)) <= b.
Proof.
  intros Hab Hj. destruct (node_index n j Hj) as [H1 H2].
  apply node_bounds; try assumption. lra.
Qed.

Lemma node_strictly_inside (n : positive) (a b : Q) (j : nat) :
  a < b -> (j < Pos.to_nat n)%nat ->
  a < a + (inject_Z (Z.of_nat j) + (1 # 2)) * ((b - a) / inject_Z (Zpos n)) < b.
Proof.
  intros Hab Hj. destruct (node_index n j Hj) as [H1 H2].
  apply node_bounds_strict; try assumption. lra.
Qed.

Lemma sum_nodes_le (f g : Q -> Q) (a h : Q) (n : nat) :
  forall i,
    (forall j, (i <= j < i + n)%nat ->
       f (a + (inject_Z (Z.of_nat j) + (1 # 2)) * h)
       <= g (a + (inject_Z (Z.of_nat j) + (1 # 2)) * h)) ->
    sum_nodes f a h i n <= sum_nodes g a h i n.
Proof.
  induction n as [|n IH]; intros i H; simpl; [lra|].
  pose proof (H i ltac:(lia)) as Hi.
  pose proof (IH (S i) ltac:(intros j Hj; apply H; lia)) as Hs.
  lra.
Qed.

Lemma sum_nodes_lt (f g : Q -> Q) (a h : Q) (n : nat) :
  forall i,
    (0 < n)%nat ->
    (forall j, (i <= j < i + n)%nat ->
       f (a + (inject_Z (Z.of_nat j) + (1 # 2)) * h)
       < g (a + (inject_Z (Z.of_nat j) + (1 # 2)) * h)) ->
    sum_nodes f a h i n < sum_nodes g a h i n.
Proof.
  induction n as [|n IH]; intros i Hn H; simpl; [lia|].
  pose proof (H i ltac:(lia)) as Hi.
  destruct n as [|n].
  - simpl. lra.
  - pose proof (IH (S i) ltac:(lia) ltac:(intros j Hj; apply H; lia)) as Hs.
    lra.
Qed.

Lemma sum_nodes_const (c a h : Q) (n : nat) :
  forall i, sum_nodes (fun _ => c) a h i n == inject_Z (Z.of_nat n) * c.
Proof.
  induction n as [|n IH]; intros i; simpl sum_nodes.
  - change (inject_Z (Z.of_nat 0)) with 0. ring.
  - rewrite IH, Nat2Z.inj_succ. unfold Z.succ.
    rewrite inject_Z_plus. change (inject_Z 1) with 1. ring.
Qed.

Lemma midpoint_rule_laws (n : positive) : integral_laws (midpoint_rule n).
Proof.
  assert (HN : 0 < inject_Z (Zpos n)).
  { change 0 with (inject_Z 0). rewrite <- Zlt_Qlt. lia. }
  assert (Hcount : inject_Z (Z.of_nat (Pos.to_nat n)) = inject_Z (Zpos n))
    by now rewrite positive_nat_Z.
  split.
  - intros f a b lo v Hab Hf Hq. unfold midpoint_rule in Hq.
    injection Hq as <-.
    set (h := (b - a) / inject_Z (Zpos n)).
    assert (Hh : h * inject_Z (Zpos n) == b - a) by (unfold h; field; lra).
    assert (H0 : 0 <= h) by (apply Qle_shift_div_l; lra).
    assert (Hlo : sum_nodes (fun _ => lo) a h 0 (Pos.to_nat n)
                  <= sum_nodes f a h 0 (Pos.to_nat n)).
    { apply sum_nodes_le. intros j Hj. apply Hf.
      apply node_inside; [assumption|lia]. }
    rewrite sum_nodes_const, Hcount in Hlo.
    setoid_replace (lo * (b - a)) with (h * (inject_Z (Zpos n) * lo))
      by (rewrite <- Hh; ring).
    rewrite (Qmult_comm h), (Qmult_comm h).
    apply Qmult_le_compat_r; assumption.
  - intros f a b hi v Hab Hf Hq. unfold midpoint_rule in Hq.
    injection Hq as <-.
    set (h := (b - a) / inject_Z (Zpos n)).
    assert (Hh : h * inject_Z (Zpos n) == b - a) by (unfold h; field; lra).
    assert (H0 : 0 <= h) by (apply Qle_shift_div_l; lra).
    assert (Hhi : sum_nodes f a h 0 (Pos.to_nat n)
                  <= sum_nodes (fun _ => hi) a h 0 (Pos.to_nat n)).
    { apply sum_nodes_le. intros j Hj. apply Hf.
      apply node_inside; [assumption|lia]. }
    rewrite sum_nodes_const, Hcount in Hhi.
    setoid_replace (hi * (b - a)) with (h * (inject_Z (Zpos n) * hi))
      by (rewrite <- Hh; ring).
    rewrite (Qmult_comm h), (Qmult_comm h).
    apply Qmult_le_compat_r; assumption.
  - intros f g a b u v Hab Hfg Hu Hv. unfold midpoint_rule in Hu, Hv.
    injection Hu as <-. injection Hv as <-.
    set (h := (b - a) / inject_Z (Zpos n)).
    assert (H0 : 0 <= h) by (apply Qle_shift_div_l; lra).
    rewrite (Qmult_comm h), (Qmult_comm h).
    apply Qmult_le_compat_r; [|assumption].
    apply sum_nodes_le. intros j Hj. apply Hfg.
    apply node_inside; [assumption|lia].
  - intros f g a b u v Hab Hfg Hu Hv. unfold midpoint_rule in Hu, Hv.
    injection Hu as <-. injection Hv as <-.
    set (h := (b - a) / inject_Z (Zpos n)).
    assert (H0 : 0 < h) by (apply Qlt_shift_div_l; lra).
    rewrite (Qmult_comm h), (Qmult_comm h).
    apply Qmult_lt_compat_r; [assumption|].
    apply sum_nodes_lt; [lia|]. intros j Hj. apply Hfg.
    apply node_strictly_inside; [assumption|lia].
Qed.

Lemma midpoint_rule_total (n : positive) : quad_total (midpoint_rule n).
Proof. intros f a b. discriminate. Qed.

(** *** The curves of the examples *)

Lemma scenario_calculator :
  init scenario_frame = Ok (calculator_of scenario_frame) /\
  calculator_of scenario_frame = mkCalc [0; 1; 2] [0; 10; 8] 2 0.
Proof. split; reflexivity. Qed.

(** The interpolant of the scenario: [10 E] up to 1 MeV, then falling
    by 2 per MeV, in the table and past it. *)
Lemma scenario_dedx (x : Q) :
  get_dedx (calculator_of scenario_frame) x ==
  if Qlt_bool 1 x then 10 - 2 * (x - 1) else 10 * x.
Proof.
  rewrite (proj2 scenario_calculator). unfold get_dedx, interp1d.
  cbn [energy dedx searchsorted List.length].
  destruct (Qlt_bool 0 x) eqn:T0; destruct (Qlt_bool 1 x) eqn:T1;
    destruct (Qlt_bool 2 x) eqn:T2; cbn [clip Nat.max Nat.min Nat.sub nth];
    cases_on_tests; try lra; field.
Qed.

Lemma scenario_dedx_positive (x : Q) :
  0 < x < 2 -> 0 < get_dedx (calculator_of scenario_frame) x.
Proof.
  intros Hx. rewrite scenario_dedx.
  destruct (Qlt_bool 1 x) eqn:T; cases_on_tests; lra.
Qed.

Lemma scenario_dedx_nonneg (x : Q) :
  0 <= x <= 2 -> 0 <= get_dedx (calculator_of scenario_frame) x.
Proof.
  intros Hx. rewrite scenario_dedx.
  destruct (Qlt_bool 1 x) eqn:T; cases_on_tests; lra.
Qed.

(** The frame [peak_frame] gets the origin as its first sample. *)
Lemma peak_calculator :
  init peak_frame = Ok (calculator_of peak_frame) /\
  calculator_of peak_frame = mkCalc [0; 1; 2] [0; 2; 0] 2 0.
Proof. split; reflexivity. Qed.

(** Past its last sample the curve of [peak_frame] is extended below
    zero. *)
Lemma peak_dedx_negative (x : Q) :
  2 < x -> get_dedx (calculator_of peak_frame) x == 4 - 2 * x.
Proof.
  intros Hx. rewrite (proj2 peak_calculator). unfold get_dedx, interp1d.
  cbn [energy dedx searchsorted List.length].
  destruct (Qlt_bool 0 x) eqn:T0; destruct (Qlt_bool 1 x) eqn:T1;
    destruct (Qlt_bool 2 x) eqn:T2; cbn [clip Nat.max Nat.min Nat.sub nth];
    cases_on_tests; try lra; field.
Qed.

(** *** Forward calculation *)

Section Forward.

Variable quad : quad_type.
Hypothesis laws : integral_laws quad.

Lemma visible_energy_unfold (self : BirksCalculator) (E kb : Q) :
  0 < E -> 0 <= kb ->
  calculate_visible_energy quad self E kb =
  match quad (integrand self kb) 0 E with
  | Some v => Ok v
  | None => Raise RuntimeError_integration_failed
  end.
Proof.
  intros HE Hk. unfold calculate_visible_energy.
  destruct (Qle_bool E 0) eqn:T1; cases_on_tests; [lra|].
  destruct (Qlt_bool kb 0) eqn:T2; cases_on_tests; [lra|].
  reflexivity.
Qed.

Lemma visible_energy_quad (self : BirksCalculator) (E kb v : Q) :
  0 < E -> 0 <= kb ->
  calculate_visible_energy quad self E kb = Ok v ->
  quad (integrand self kb) 0 E = Some v.
Proof.
  intros HE Hk. rewrite visible_energy_unfold by assumption.
  destruct (quad (integrand self kb) 0 E); congruence.
Qed.

Lemma visible_energy_kb_0 (self : BirksCalculator) (E v : Q) :
  0 < E -> calculate_visible_energy quad self E 0 = Ok v -> v == E.
Proof.
  intros HE Hv. apply visible_energy_quad in Hv; [|lra|lra].
  assert (H1 : 1 * (E - 0) <= v).
  { apply (quad_lower quad laws (integrand self 0)); [lra| |exact Hv].
    intros x _. rewrite integrand_kb_0. lra. }
  assert (H2 : v <= 1 * (E - 0)).
  { apply (quad_upper quad laws (integrand self 0)); [lra| |exact Hv].
    intros x _. rewrite integrand_kb_0. lra. }
  lra.
Qed.

Lemma visible_energy_nonneg (self : BirksCalculator) (E kb v : Q) :
  0 < E -> 0 <= kb ->
  calculate_visible_energy quad self E kb = Ok v -> 0 <= v.
Proof.
  intros HE Hk Hv. apply visible_energy_quad in Hv; try assumption.
  assert (H : 0 * (E - 0) <= v).
  { apply (quad_lower quad laws (integrand self kb)); [lra| |exact Hv].
    intros x _. apply integrand_nonneg. }
  lra.
Qed.

Lemma visible_energy_le_initial (self : BirksCalculator) (E kb v : Q) :
  0 < E -> 0 <= kb ->
  (forall x, 0 <= x <= E -> 0 <= get_dedx self x) ->
  calculate_visible_energy quad self E kb = Ok v -> v <= E.
Proof.
  intros HE Hk Hd Hv. apply visible_energy_quad in Hv; try assumption.
  assert (H : v <= 1 * (E - 0)).
  { apply (quad_upper quad laws (integrand self kb)); [lra| |exact Hv].
    intros x Hx. apply integrand_le_1; auto. }
  lra.
Qed.

Lemma visible_energy_antitone (self : BirksCalculator) (E kb1 kb2 v1 v2 : Q) :
  0 < E -> 0 <= kb1 -> kb1 <= kb2 ->
  (forall x, 0 <= x <= E -> 0 <= get_dedx self x) ->
  calculate_visible_energy quad self E kb1 = Ok v1 ->
  calculate_visible_energy quad self E kb2 = Ok v2 ->
  v2 <= v1.
Proof.
  intros HE Hk H12 Hd H1 H2.
  apply visible_energy_quad in H1; [|lra|lra].
  apply visible_energy_quad in H2; [|lra|lra].
  apply (quad_monotone quad laws (integrand self kb2) (integrand self kb1) 0 E);
    try assumption; [lra|].
  intros x Hx. apply integrand_antitone; auto.
Qed.

Lemma visible_energy_strictly_antitone
    (self : BirksCalculator) (E kb1 kb2 v1 v2 : Q) :
  0 < E -> 0 <= kb1 -> kb1 < kb2 ->
  (forall x, 0 < x < E -> 0 < get_dedx self x) ->
  calculate_visible_energy quad self E kb1 = Ok v1 ->
  calculate_visible_energy quad self E kb2 = Ok v2 ->
  v2 < v1.
Proof.
  intros HE Hk H12 Hd H1 H2.
  apply visible_energy_quad in H1; [|lra|lra].
  apply visible_energy_quad in H2; [|lra|lra].
  apply (quad_strict quad laws (integrand self kb2) (integrand self kb1) 0 E);
    try assumption.
  intros x Hx. apply integrand_strictly_antitone; auto.
Qed.

Lemma quenching_factor_unfold (self : BirksCalculator) (E kb : Q) :
  0 < E ->
  calculate_quenching_factor quad self E kb =
  (v <- calculate_visible_energy quad self E kb ;; Ok (v / E)).
Proof.
  intros HE. unfold calculate_quenching_factor.
  destruct (Qle_bool E 0) eqn:T; cases_on_tests; [lra|reflexivity].
Qed.



(** C1, amended: at a fixed initial energy [E > 0] the quenching factor
    does not increase with [kB], provided the interpolated stopping
    power is not negative anywhere on [0, E]. *)
Theorem quenching_factor_antitone
    (self : BirksCalculator) (E kb1 kb2 q1 q2 : Q) :
  0 < E -> 0 <= kb1 -> kb1 < kb2 ->
  (forall x, 0 <= x <= E -> 0 <= get_dedx self x) ->
  calculate_quenching_factor quad self E kb1 = Ok q1 ->
  calculate_quenching_factor quad self E kb2 = Ok q2 ->
  q2 <= q1.
Proof.
  intros HE Hk H12 Hd H1 H2.
  rewrite quenching_factor_unfold in H1, H2 by assumption.
  destruct (calculate_visible_energy quad self E kb1) as [v1|] eqn:Hv1;
    [|discriminate].
  destruct (calculate_visible_energy quad self E kb2) as [v2|] eqn:Hv2;
    [|discriminate].
  cbn [bind] in H1, H2. injection H1 as <-. injection H2 as <-.
  assert (Hv : v2 <= v1)
    by (apply (visible_energy_antitone self E kb1 kb2); auto; lra).
  unfold Qdiv. apply Qmult_le_compat_r; [assumption|].
  apply Qinv_le_0_compat. lra.
Qed.

End Forward.



Lemma quenching_factor_antitone_witness :
  exists q1 q2,
    calculate_quenching_factor (midpoint_rule 4) (calculator_of scenario_frame)
      2 0.01 = Ok q1 /\
    calculate_quenching_factor (midpoint_rule 4) (calculator_of scenario_frame)
      2 0.02 = Ok q2 /\
    q2 <= q1.
Proof.
  eexists. eexists.
  split; [vm_compute; reflexivity|]. split; [vm_compute; reflexivity|].
  apply (quenching_factor_antitone (midpoint_rule 4) (midpoint_rule_laws 4)
           (calculator_of scenario_frame) 2 0.01 0.02);
    [reflexivity | lra | reflexivity | exact scenario_dedx_nonneg
    | vm_compute; reflexivity | vm_compute; reflexivity].
Defined.

(** C1 fails where the curve is extended below zero.  The calculator
    built from [peak_frame] has the samples (0,0), (1,2), (2,0); at
    [E = 3] the stopping power interpolated on (2, 3] is [4 - 2 E < 0],
    and the quenching factor for [kB = 0.4] is above the one for
    [kB = 0].  (With the exact integral the two are
    [(ln 1.8 + ln 9) / 2.4], about 1.16, and 1.) *)
Lemma quenching_factor_not_antitone :
  exists q1 q2,
    init peak_frame = Ok (calculator_of peak_frame) /\
    get_dedx (calculator_of peak_frame) 3 < 0 /\
    calculate_quenching_factor (midpoint_rule 4) (calculator_of peak_frame) 3 0
    = Ok q1 /\
    calculate_quenching_factor (midpoint_rule 4) (calculator_of peak_frame) 3 0.4
    = Ok q2 /\
    0 <= 0 < 0.4 /\ ~ q2 <= q1.
Proof.
  eexists. eexists.
  split; [reflexivity|]. split; [reflexivity|].
  split; [vm_compute; reflexivity|]. split; [vm_compute; reflexivity|].
  split; [lra|]. vm_compute. intros H. now apply H.
Qed.


(** *** The inverse solver *)

Section Inverse.

Variable quad : quad_type.
Variable brentq : brentq_type.

(** [solve_kb] past its four early exits. *)
Lemma solve_kb_search (self : BirksCalculator) (E obs kb_min kb_max : Q) :
  0 < E -> 0 < obs -> obs <= E -> 0.000000001 <= Qabs (obs - E) ->
  solve_kb quad brentq self E obs kb_min kb_max =
  (f_min <- objective quad self E obs kb_min ;;
   f_max <- objective quad self E obs kb_max ;;
   kb_max <- check_bracket (objective quad self E obs) f_min f_max kb_max ;;
   match brentq (objective quad self E obs) kb_min kb_max with
   | Some kb_solution => Ok kb_solution
   | None => Raise RuntimeError_root_finding_failed
   end).
Proof.
  intros HE Ho HoE Habs. unfold solve_kb.
  destruct (Qle_bool E 0) eqn:T1; cases_on_tests; [lra|].
  destruct (Qle_bool obs 0) eqn:T2; cases_on_tests; [lra|].
  destruct (Qlt_bool E obs) eqn:T3; cases_on_tests; [lra|].
  destruct (Qlt_bool (Qabs (obs - E)) 0.000000001) eqn:T4; cases_on_tests;
    [lra|reflexivity].
Qed.

Lemma objective_raises (self : BirksCalculator) (E obs kb : Q) (e : exn) :
  0 < E -> 0 <= kb ->
  objective quad self E obs kb = Raise e -> e = RuntimeError_integration_failed.
Proof.
  intros HE Hk. unfold objective.
  rewrite visible_energy_unfold by assumption.
  destruct (quad (integrand self kb) 0 E); cbn [bind]; congruence.
Qed.

Lemma solve_kb_exceeds (self : BirksCalculator) (E obs kb_min kb_max : Q) :
  0 < E -> E < obs ->
  solve_kb quad brentq self E obs kb_min kb_max
  = Raise ValueError_observed_exceeds_initial.
Proof.
  intros HE H. unfold solve_kb.
  destruct (Qle_bool E 0) eqn:T1; cases_on_tests; [lra|].
  destruct (Qle_bool obs 0) eqn:T2; cases_on_tests; [lra|].
  destruct (Qlt_bool E obs) eqn:T3; cases_on_tests; [reflexivity|lra].
Qed.

(** C5, amended: [solve_kb] raises an error of the kind InvalidArgument
    when [initialEnergy <= 0], when [observedEnergy <= 0] and when
    [observedEnergy > initialEnergy], whatever the integrator and the
    root finder do (none of them is consulted); and when neither end of
    the bracket is negative these are the only cases in which it raises
    an error of that kind. *)
Theorem precondition_errors (self : BirksCalculator) (E obs kb_min kb_max : Q) :
  (E <= 0 ->
   solve_kb quad brentq self E obs kb_min kb_max
   = Raise ValueError_initial_not_positive) /\
  (0 < E -> obs <= 0 ->
   solve_kb quad brentq self E obs kb_min kb_max
   = Raise ValueError_observed_not_positive) /\
  (0 < E -> 0 < obs -> E < obs ->
   solve_kb quad brentq self E obs kb_min kb_max
   = Raise ValueError_observed_exceeds_initial) /\
  (0 <= kb_min -> 0 <= kb_max ->
   forall e,
     solve_kb quad brentq self E obs kb_min kb_max = Raise e ->
     kind_of e = InvalidArgument ->
     E <= 0 \/ obs <= 0 \/ E < obs).
Proof.
  repeat split.
  - intros H. unfold solve_kb.
    destruct (Qle_bool E 0) eqn:T1; cases_on_tests; [reflexivity|lra].
  - intros HE H. unfold solve_kb.
    destruct (Qle_bool E 0) eqn:T1; cases_on_tests; [lra|].
    destruct (Qle_bool obs 0) eqn:T2; cases_on_tests; [reflexivity|lra].
  - intros HE Ho H. now apply solve_kb_exceeds.
  - intros Hmin Hmax e He Hkind.
    destruct (Qlt_le_dec 0 E) as [HE|HE]; [|tauto].
    destruct (Qlt_le_dec 0 obs) as [Ho|Ho]; [|tauto].
    destruct (Qlt_le_dec E obs) as [HoE|HoE]; [tauto|].
    exfalso.
    destruct (Qlt_le_dec (Qabs (obs - E)) 0.000000001) as [Hs|Hs].
    { unfold solve_kb in He.
      destruct (Qle_bool E 0) eqn:T1; cases_on_tests; [lra|].
      destruct (Qle_bool obs 0) eqn:T2; cases_on_tests; [lra|].
      destruct (Qlt_bool E obs) eqn:T3; cases_on_tests; [lra|].
      destruct (Qlt_bool (Qabs (obs - E)) 0.000000001) eqn:T4; cases_on_tests;
        [discriminate|lra]. }
    rewrite solve_kb_search in He by assumption.
    destruct (objective quad self E obs kb_min) as [f_min|e1] eqn:H1;
      cbn [bind] in He.
    2:{ injection He as <-. apply objective_raises in H1; try assumption.
        subst e1. discriminate. }
    destruct (objective quad self E obs kb_max) as [f_max|e2] eqn:H2;
      cbn [bind] in He.
    2:{ injection He as <-. apply objective_raises in H2; try assumption.
        subst e2. discriminate. }
    unfold check_bracket in He.
    destruct (Qlt_bool 0 (f_min * f_max)).
    + destruct (Qlt_bool 0 f_max).
      * destruct (objective quad self E obs 2) as [f2|e3] eqn:H3;
          cbn [bind] in He.
        2:{ injection He as <-. apply objective_raises in H3; try lra.
            subst e3. discriminate. }
        destruct (Qlt_bool 0 f2); cbn [bind] in He.
        -- injection He as <-. discriminate.
        -- destruct (brentq _ kb_min 2); [discriminate|].
           injection He as <-. discriminate.
      * cbn [bind] in He. injection He as <-. discriminate.
    + cbn [bind] in He.
      destruct (brentq _ kb_min kb_max); [discriminate|].
      injection He as <-. discriminate.
Qed.

(** C6: when the objective has the same sign at both ends of the
    bracket, (a) if both values are positive the upper end is set to 2.0
    once, the objective is evaluated there, and the call fails with
    NoSolutionInRange only if that value is positive too, the root being
    searched on [kb_min, 2.0] otherwise; (b) if both values are negative
    the call fails with NoSolutionInRange at once, the objective at 2.0
    playing no part. *)
Theorem bracket_handling
    (self : BirksCalculator) (E obs kb_min kb_max f_min f_max : Q) :
  0 < E -> 0 < obs -> obs <= E -> 0.000000001 <= Qabs (obs - E) ->
  objective quad self E obs kb_min = Ok f_min ->
  objective quad self E obs kb_max = Ok f_max ->
  (0 < f_min -> 0 < f_max ->
   solve_kb quad brentq self E obs kb_min kb_max =
   (f_2 <- objective quad self E obs 2 ;;
    if Qlt_bool 0 f_2 then Raise ValueError_no_solution_max_kb
    else match brentq (objective quad self E obs) kb_min 2 with
         | Some kb_solution => Ok kb_solution
         | None => Raise RuntimeError_root_finding_failed
         end) /\
   (forall e,
       solve_kb quad brentq self E obs kb_min kb_max = Raise e ->
       kind_of e = NoSolutionInRange ->
       exists f_2, objective quad self E obs 2 = Ok f_2 /\ 0 < f_2)) /\
  (f_min < 0 -> f_max < 0 ->
   solve_kb quad brentq self E obs kb_min kb_max
   = Raise ValueError_no_solution_in_range /\
   kind_of ValueError_no_solution_in_range = NoSolutionInRange).
Proof.
  intros HE Ho HoE Habs Hmin Hmax.
  rewrite solve_kb_search by assumption.
  rewrite Hmin, Hmax. cbn [bind]. unfold check_bracket. split.
  - intros H1 H2.
    assert (Hp : 0 < f_min * f_max) by (apply Qmult_lt_0_compat; assumption).
    apply Qlt_bool_iff in Hp. rewrite Hp.
    apply Qlt_bool_iff in H2. rewrite H2.
    assert (Heq :
      (kb_max0 <- (f_max0 <- objective quad self E obs 2 ;;
                   if Qlt_bool 0 f_max0
                   then Raise ValueError_no_solution_max_kb else Ok 2) ;;
       match brentq (objective quad self E obs) kb_min kb_max0 with
       | Some kb_solution => Ok kb_solution
       | None => Raise RuntimeError_root_finding_failed
       end) =
      (f_2 <- objective quad self E obs 2 ;;
       if Qlt_bool 0 f_2 then Raise ValueError_no_solution_max_kb
       else match brentq (objective quad self E obs) kb_min 2 with
            | Some kb_solution => Ok kb_solution
            | None => Raise RuntimeError_root_finding_failed
            end)).
    { destruct (objective quad self E obs 2) as [f_2|e]; cbn [bind];
        [|reflexivity].
      destruct (Qlt_bool 0 f_2); reflexivity. }
    split; [exact Heq|].
    intros e He Hkind. rewrite Heq in He.
    destruct (objective quad self E obs 2) as [f_2|e2] eqn:H3; cbn [bind] in He.
    + exists f_2. split; [reflexivity|].
      destruct (Qlt_bool 0 f_2) eqn:T; cases_on_tests; [assumption|].
      destruct (brentq _ kb_min 2); [discriminate|].
      injection He as <-. discriminate.
    + injection He as <-.
      unfold objective, calculate_visible_energy in H3.
      destruct (Qle_bool E 0); [discriminate|].
      destruct (Qlt_bool 2 0) eqn:T; [cases_on_tests; lra|].
      destruct (quad _ 0 E); cbn [bind] in H3; [discriminate|].
      injection H3 as <-. discriminate.
  - intros H1 H2.
    assert (Hp : 0 < f_min * f_max).
    { setoid_replace (f_min * f_max) with ((- f_min) * (- f_max)) by ring.
      apply Qmult_lt_0_compat; lra. }
    apply Qlt_bool_iff in Hp. rewrite Hp.
    assert (Hn : Qlt_bool 0 f_max = false) by (apply Qlt_bool_false; lra).
    rewrite Hn. split; reflexivity.
Qed.

End Inverse.

(** C8: the tolerance [1e-9] of the special case is one-sided.  For
    [initialEnergy > 0], an observed energy above the initial one, by
    however little, raises the InvalidArgument error of line 198, since
    that test comes first; and the call returns [kB = 0] by the special
    case (that is, with no regard to the integrator and the root finder)
    exactly when [0 < observedEnergy <= initialEnergy] and
    [initialEnergy - observedEnergy < 1e-9]. *)
Theorem shortcut_one_sided (self : BirksCalculator) (E obs kb_min kb_max : Q) :
  0 < E ->
  (E < obs ->
   forall quad brentq,
     solve_kb quad brentq self E obs kb_min kb_max
     = Raise ValueError_observed_exceeds_initial /\
     kind_of ValueError_observed_exceeds_initial = InvalidArgument) /\
  ((forall quad brentq,
       solve_kb quad brentq self E obs kb_min kb_max = Ok 0) <->
   0 < obs /\ obs <= E /\ E - obs < 0.000000001).
Proof.
  intros HE. split; [|split].
  - intros H quad brentq. split; [|reflexivity].
    now apply solve_kb_exceeds.
  - intros H.
    specialize (H (fun _ _ _ => None) (fun _ _ _ => None)).
    unfold solve_kb in H.
    destruct (Qle_bool E 0) eqn:T1; [discriminate|].
    destruct (Qle_bool obs 0) eqn:T2; [discriminate|].
    destruct (Qlt_bool E obs) eqn:T3; [discriminate|].
    destruct (Qlt_bool (Qabs (obs - E)) 0.000000001) eqn:T4; cases_on_tests.
    + apply Qabs_Qlt_condition in T4. repeat split; lra.
    + exfalso. unfold objective, calculate_visible_energy in H.
      rewrite (proj2 (Qle_bool_false E 0) T1) in H.
      destruct (Qlt_bool kb_min 0); discriminate.
  - intros (Ho & HoE & Hs) quad brentq. unfold solve_kb.
    destruct (Qle_bool E 0) eqn:T1; cases_on_tests; [lra|].
    destruct (Qle_bool obs 0) eqn:T2; cases_on_tests; [lra|].
    destruct (Qlt_bool E obs) eqn:T3; cases_on_tests; [lra|].
    destruct (Qlt_bool (Qabs (obs - E)) 0.000000001) eqn:T4; cases_on_tests;
      [reflexivity|].
    exfalso. apply (Qlt_not_le _ _ Hs). 
    revert T4. apply Qabs_case; intros; lra.
Qed.

Lemma shortcut_one_sided_witness :
  solve_kb (midpoint_rule 1) bisection (calculator_of scenario_frame)
    1 (1 + 0.0000000001) 0 0.5
  = Raise ValueError_observed_exceeds_initial /\
  solve_kb (midpoint_rule 1) bisection (calculator_of scenario_frame)
    1 (1 - 0.0000000001) 0 0.5
  = Ok 0.
Proof.
  split.
  - apply (shortcut_one_sided (calculator_of scenario_frame)
             1 (1 + 0.0000000001) 0 0.5 eq_refl).
    reflexivity.
  - apply (shortcut_one_sided (calculator_of scenario_frame)
             1 (1 - 0.0000000001) 0 0.5 eq_refl).
    repeat split; try reflexivity. discriminate.
Defined.

(** C5 fails when an end of the bracket is negative: the energies are
    valid, and the error raised is the InvalidArgument of
    [calculate_visible_energy] for a negative [kB]. *)
Lemma negative_bracket_invalid_argument :
  exists e,
    solve_kb (midpoint_rule 1) bisection (calculator_of scenario_frame)
      2 1 (-1) 0.5 = Raise e /\
    kind_of e = InvalidArgument /\
    ~ (2 <= 0 \/ 1 <= 0 \/ 2 < 1).
Proof.
  exists ValueError_negative_kb.
  split; [reflexivity|]. split; [reflexivity|]. lra.
Qed.

Lemma precondition_errors_witness :
  solve_kb (midpoint_rule 1) bisection (calculator_of scenario_frame)
    2 3 0 0.5
  = Raise ValueError_observed_exceeds_initial.
Proof.
  apply (precondition_errors (midpoint_rule 1) bisection
           (calculator_of scenario_frame) 2 3 0 0.5); reflexivity.
Defined.

Lemma bracket_handling_witness :
  solve_kb (midpoint_rule 1) bisection (calculator_of scenario_frame)
    2 0.09 0 0.5
  = Raise ValueError_no_solution_max_kb /\
  solve_kb (midpoint_rule 1) bisection (calculator_of scenario_frame)
    2 1.9 0.1 0.5
  = Raise ValueError_no_solution_in_range.
Proof.
  split.
  - edestruct (bracket_handling (midpoint_rule 1) bisection
                 (calculator_of scenario_frame) 2 0.09 0 0.5) as [Ha _];
      [reflexivity | reflexivity | discriminate | discriminate
      | vm_compute; reflexivity | vm_compute; reflexivity |].
    destruct (Ha eq_refl eq_refl) as [Heq _].
    exact (eq_trans Heq eq_refl).
  - edestruct (bracket_handling (midpoint_rule 1) bisection
                 (calculator_of scenario_frame) 2 1.9 0.1 0.5) as [_ Hb];
      [reflexivity | reflexivity | discriminate | discriminate
      | vm_compute; reflexivity | vm_compute; reflexivity |].
    exact (proj1 (Hb eq_refl eq_refl)).
Defined.

(** *** Bisection is a bracketing root finder *)

Lemma sign_change_moves (x y z : Q) : x * z <= 0 -> 0 < x * y -> y * z <= 0.
Proof.
  intros Hxz Hxy.
  destruct (Qlt_le_dec 0 x) as [Hx|Hx].
  - assert (Hy : 0 < y).
    { destruct (Qlt_le_dec 0 y) as [Hy|Hy]; [assumption|].
      assert (x * y <= 0).
      { setoid_replace (x * y) with (- (x * - y)) by ring.
        assert (0 <= x * - y) by (apply Qmult_le_0_compat; lra). lra. }
      lra. }
    assert (Hz : z <= 0).
    { destruct (Qlt_le_dec 0 z) as [Hz|Hz]; [|assumption].
      assert (0 < x * z) by (apply Qmult_lt_0_compat; assumption). lra. }
    setoid_replace (y * z) with (- (y * - z)) by ring.
    assert (0 <= y * - z) by (apply Qmult_le_0_compat; lra). lra.
  - assert (Hx' : x < 0).
    { destruct (Qlt_le_dec x 0) as [H|H]; [assumption|].
      assert (E : x == 0) by lra. rewrite E in Hxy. lra. }
    assert (Hy : y < 0).
    { destruct (Qlt_le_dec y 0) as [Hy|Hy]; [assumption|].
      assert (x * y <= 0).
      { setoid_replace (x * y) with (- (- x * y)) by ring.
        assert (0 <= - x * y) by (apply Qmult_le_0_compat; lra). lra. }
      lra. }
    assert (Hz : 0 <= z).
    { destruct (Qlt_le_dec z 0) as [Hz|Hz]; [|assumption].
      assert (0 < - x * - z) by (apply Qmult_lt_0_compat; lra).
      assert (E : - x * - z == x * z) by ring. lra. }
    setoid_replace (y * z) with (- (- y * z)) by ring.
    assert (0 <= - y * z) by (apply Qmult_le_0_compat; lra). lra.
Qed.

Lemma bisect_brackets (f : Q -> result Q) (g : Q -> Q) (n : nat) :
  forall a b,
    a <= b -> (forall x, a <= x <= b -> f x = Ok (g x)) ->
    g a * g b <= 0 ->
    exists r u v,
      bisect n f a b (g a) = Some r /\
      a <= u /\ u <= r /\ r <= v /\ v <= b /\
      g u * g v <= 0 /\
      (v - u) * inject_Z (2 ^ Z.of_nat n) == b - a.
Proof.
  induction n as [|n IH]; intros a b Hab Hf Hs.
  - exists a, a, b. simpl. repeat split; try lra; try assumption. ring.
  - cbn [bisect].
    assert (Hm : a <= (a + b) / 2 <= b).
    { split; [apply Qle_shift_div_l | apply Qle_shift_div_r]; lra. }
    rewrite (Hf _ Hm).
    assert (Hpow : inject_Z (2 ^ Z.of_nat (S n)) == 2 * inject_Z (2 ^ Z.of_nat n)).
    { rewrite Nat2Z.inj_succ, Z.pow_succ_r by lia.
      now rewrite inject_Z_mult. }
    destruct (Qle_bool (g a * g ((a + b) / 2)) 0) eqn:T; cases_on_tests.
    + destruct (IH a ((a + b) / 2)) as (r & u & v & Hr & H1 & H2 & H3 & H4 & H5 & H6);
        [lra | intros x Hx; apply Hf; lra | assumption |].
      exists r, u, v. repeat split; try assumption; try lra.
      rewrite Hpow.
      setoid_replace ((v - u) * (2 * inject_Z (2 ^ Z.of_nat n)))
        with (2 * ((v - u) * inject_Z (2 ^ Z.of_nat n))) by ring.
      rewrite H6. field.
    + destruct (IH ((a + b) / 2) b) as (r & u & v & Hr & H1 & H2 & H3 & H4 & H5 & H6);
        [lra | intros x Hx; apply Hf; lra
        | apply (sign_change_moves (g a)); assumption |].
      exists r, u, v. repeat split; try assumption; try lra.
      rewrite Hpow.
      setoid_replace ((v - u) * (2 * inject_Z (2 ^ Z.of_nat n)))
        with (2 * ((v - u) * inject_Z (2 ^ Z.of_nat n))) by ring.
      rewrite H6. field.
Qed.

Lemma halvings_enough (w : Q) :
  0 <= w -> w * 100000000 <= inject_Z (2 ^ Z.of_nat (halvings w)).
Proof.
  intros Hw. unfold halvings.
  set (c := Qceiling (w * 100000000)).
  rewrite Z2Nat.id by apply Z.log2_up_nonneg.
  apply Qle_trans with (inject_Z c); [apply Qle_ceiling|].
  rewrite <- Zle_Qle.
  destruct (Z_lt_le_dec 1 c) as [Hc|Hc].
  - apply Z.log2_up_spec. assumption.
  - rewrite Z.log2_up_eqn0 by assumption. simpl. lia.
Qed.

Lemma bisection_brackets : brentq_brackets bisection.
Proof.
  intros f g a b Hab Hf Hs. unfold bisection.
  rewrite (Hf a), (Hf b) by lra.
  assert (T : Qlt_bool 0 (g a * g b) = false) by now apply Qlt_bool_false.
  rewrite T.
  destruct (bisect_brackets f g (halvings (b - a)) a b Hab Hf Hs)
    as (r & u & v & Hr & H1 & H2 & H3 & H4 & H5 & H6).
  exists r, u, v. repeat split; try assumption.
  pose proof (halvings_enough (b - a) ltac:(lra)) as Hh.
  set (P := inject_Z (2 ^ Z.of_nat (halvings (b - a)))) in *.
  assert (HP : 0 < P).
  { unfold P. change 0 with (inject_Z 0). rewrite <- Zlt_Qlt.
    apply Z.pow_pos_nonneg; lia. }
  assert (Hw : v - u <= 0.00000001).
  { apply (Qmult_le_r _ _ P HP). rewrite H6. lra. }
  pose proof (Qabs_nonneg r) as Hr0.
  unfold xtol, rtol.
  assert (0 <= 0.00000001 * Qabs r) by (apply Qmult_le_0_compat; lra).
  lra.
Qed.

(** *** Forward, then inverse *)

Section RoundTrip.

Variable quad : quad_type.
Variable brentq : brentq_type.
Hypothesis laws : integral_laws quad.
Hypothesis total : quad_total quad.
Hypothesis brackets : brentq_brackets brentq.

Lemma visible_energy_returns (self : BirksCalculator) (E kb : Q) :
  0 < E -> 0 <= kb ->
  calculate_visible_energy quad self E kb = Ok (visible quad self E kb).
Proof.
  intros HE Hk. rewrite visible_energy_unfold by assumption.
  unfold visible.
  destruct (quad (integrand self kb) 0 E) eqn:Hq; [reflexivity|].
  now apply total in Hq.
Qed.

(** C3, amended: let [v] be the visible energy computed for [E > 0]
    and [kB] in [0, 0.5).  If the interpolated stopping power is
    positive inside (0, E) and [v] is at least [1e-9] below [E], then
    [solve_kb] with the default bracket returns a value within [1e-6]
    of [kB] -- for an integrator with the properties of the integral,
    that returns, and a root finder that brackets a sign change within
    its tolerance. *)
Theorem round_trip (self : BirksCalculator) (E kb v : Q) :
  0 < E -> 0 <= kb -> kb < 0.5 ->
  (forall x, 0 < x < E -> 0 < get_dedx self x) ->
  calculate_visible_energy quad self E kb = Ok v ->
  0.000000001 <= E - v ->
  exists r,
    solve_kb_default quad brentq self E v = Ok r /\
    Qabs (r - kb) <= 0.000001.
Proof.
  intros HE Hk Hk5 Hd Hv Hgap.
  set (V := visible quad self E).
  assert (HV : forall k, 0 <= k -> calculate_visible_energy quad self E k = Ok (V k))
    by (intros k Hk0; now apply visible_energy_returns).
  assert (Hstrict : forall k1 k2, 0 <= k1 -> k1 < k2 -> V k2 < V k1).
  { intros k1 k2 H1 H2.
    apply (visible_energy_strictly_antitone quad laws self E k1 k2);
      try assumption; apply HV; lra. }
  assert (Hvk : v = V kb) by (rewrite HV in Hv by assumption; congruence).
  assert (HV0 : V 0 == E)
    by (apply (visible_energy_kb_0 quad laws self); [assumption | apply HV; lra]).
  assert (HV5 : 0 <= V 0.5)
    by (apply (visible_energy_nonneg quad laws self E 0.5);
        [assumption | lra | apply HV; lra]).
  assert (Hv0 : 0 < v) by (rewrite Hvk; specialize (Hstrict kb 0.5 Hk Hk5); lra).
  set (g := fun k => V k - v).
  assert (Hobj : forall k, 0 <= k -> objective quad self E v k = Ok (g k)).
  { intros k Hk0. unfold objective. now rewrite HV. }
  unfold solve_kb_default.
  rewrite solve_kb_search; try assumption; try lra.
  2:{ apply Qabs_case; intros; lra. }
  rewrite !Hobj by lra. cbn [bind].
  assert (Hg0 : 0 < g 0) by (unfold g; lra).
  assert (Hg5 : g 0.5 < 0)
    by (unfold g; rewrite Hvk; specialize (Hstrict kb 0.5 Hk Hk5); lra).
  assert (Hprod : g 0 * g 0.5 <= 0).
  { setoid_replace (g 0 * g 0.5) with (- (g 0 * - g 0.5)) by ring.
    assert (0 <= g 0 * - g 0.5) by (apply Qmult_le_0_compat; lra). lra. }
  unfold check_bracket.
  rewrite (proj2 (Qlt_bool_false 0 (g 0 * g 0.5)) Hprod). cbn [bind].
  destruct (brackets (objective quad self E v) g 0 0.5)
    as (r & u & w & Hr & H1 & H2 & H3 & H4 & H5 & H6);
    [lra | intros x Hx; apply Hobj; lra | exact Hprod |].
  rewrite Hr. exists r. split; [reflexivity|].
  assert (Hu : u <= kb).
  { destruct (Qlt_le_dec kb u) as [H|H]; [|assumption]. exfalso.
    assert (Gu : g u < 0)
      by (unfold g; rewrite Hvk; specialize (Hstrict kb u Hk H); lra).
    assert (Gw : g w < 0)
      by (unfold g; rewrite Hvk;
          specialize (Hstrict kb w Hk ltac:(lra)); lra).
    assert (0 < - g u * - g w) by (apply Qmult_lt_0_compat; lra).
    assert (- g u * - g w == g u * g w) by ring. lra. }
  assert (Hw : kb <= w).
  { destruct (Qlt_le_dec w kb) as [H|H]; [|assumption]. exfalso.
    assert (Gw : 0 < g w)
      by (unfold g; rewrite Hvk; specialize (Hstrict w kb ltac:(lra) H); lra).
    assert (Gu : 0 < g u)
      by (unfold g; rewrite Hvk;
          specialize (Hstrict u kb H1 ltac:(lra)); lra).
    assert (0 < g u * g w) by (apply Qmult_lt_0_compat; lra). lra. }
  assert (Hr0 : Qabs r == r) by (apply Qabs_pos; lra).
  unfold xtol, rtol in H6. rewrite Hr0 in H6.
  apply Qabs_Qle_condition. lra.
Qed.

End RoundTrip.

Lemma round_trip_witness :
  exists v r,
    calculate_visible_energy (midpoint_rule 1) (calculator_of scenario_frame)
      2 0.01 = Ok v /\
    solve_kb_default (midpoint_rule 1) bisection (calculator_of scenario_frame)
      2 v = Ok r /\
    Qabs (r - 0.01) <= 0.000001.
Proof.
  eexists.
  destruct (round_trip (midpoint_rule 1) bisection (midpoint_rule_laws 1)
              (midpoint_rule_total 1) bisection_brackets
              (calculator_of scenario_frame) 2 0.01 _
              eq_refl ltac:(discriminate) eq_refl scenario_dedx_positive
              eq_refl ltac:(vm_compute; discriminate))
    as [r [Hr Hclose]].
  exists r. split; [reflexivity|]. split; [exact Hr | exact Hclose].
Defined.

(** C3 fails for a small initial energy: whatever [kB] was, the visible
    energy is then within [1e-9] of the initial one and [solve_kb]
    returns 0 by its special case.  Here [E = 1e-10] and [kB = 0.3] on
    the curve of the scenario. *)
Lemma round_trip_fails_for_small_energy :
  exists v,
    calculate_visible_energy (midpoint_rule 1) (calculator_of scenario_frame)
      0.0000000001 0.3 = Ok v /\
    0 < 0.0000000001 /\ 0 <= 0.3 < 0.5 /\
    solve_kb_default (midpoint_rule 1) bisection (calculator_of scenario_frame)
      0.0000000001 v = Ok 0 /\
    ~ Qabs (0 - 0.3) <= 0.000001.
Proof.
  eexists. split; [vm_compute; reflexivity|].
  split; [reflexivity|]. split; [split; [discriminate|reflexivity]|].
  split; [vm_compute; reflexivity|].
  vm_compute. intros H. now apply H.
Qed.

(** *** Inside the table the stopping power keeps the sign of the samples *)

Lemma searchsorted_below (xs : list Q) (x : Q) :
  forall j, (j < searchsorted xs x)%nat -> nth j xs 0 < x.
Proof.
  induction xs as [|e xs IH]; intros j Hj; simpl in Hj; [lia|].
  destruct (Qlt_bool e x) eqn:T; [|lia]. cases_on_tests.
  destruct j as [|j]; simpl; [assumption|]. apply IH. lia.
Qed.

Lemma searchsorted_at (xs : list Q) (x : Q) :
  (searchsorted xs x < List.length xs)%nat ->
  x <= nth (searchsorted xs x) xs 0.
Proof.
  induction xs as [|e xs IH]; simpl; [lia|].
  destruct (Qlt_bool e x) eqn:T; cases_on_tests.
  - intros H. apply IH. lia.
  - intros _. assumption.
Qed.

Lemma searchsorted_bound (xs : list Q) (x : Q) :
  (searchsorted xs x <= List.length xs)%nat.
Proof.
  induction xs as [|e xs IH]; simpl; [lia|].
  destruct (Qlt_bool e x); lia.
Qed.

Lemma last_is_nth (xs : list Q) :
  last xs 0 = nth (List.length xs - 1) xs 0.
Proof.
  induction xs as [|e xs IH]; [reflexivity|].
  destruct xs as [|e' xs]; [reflexivity|].
  change (last (e :: e' :: xs) 0) with (last (e' :: xs) 0).
  rewrite IH. simpl. now rewrite Nat.sub_0_r.
Qed.

Lemma nth_nonneg (ys : list Q) (j : nat) :
  Forall (fun y => 0 <= y) ys -> 0 <= nth j ys 0.
Proof.
  intros H. revert j. induction H as [|y ys Hy _ IH]; intros [|j]; simpl;
    try lra; auto.
Qed.

(** A point of the chord between two samples that are not negative. *)
Lemma chord_nonneg (x_lo x_hi y_lo y_hi x : Q) :
  0 <= y_lo -> 0 <= y_hi ->
  x_lo <= x -> (x_lo < x -> x <= x_hi) ->
  0 <= (y_hi - y_lo) / (x_hi - x_lo) * (x - x_lo) + y_lo.
Proof.
  intros Hlo Hhi H1 H2.
  destruct (Qlt_le_dec x_lo x) as [H|H].
  - specialize (H2 H).
    assert (Hd : 0 < x_hi - x_lo) by lra.
    setoid_replace ((y_hi - y_lo) / (x_hi - x_lo) * (x - x_lo) + y_lo)
      with ((y_hi * (x - x_lo) + y_lo * (x_hi - x)) / (x_hi - x_lo))
      by (field; lra).
    apply Qle_shift_div_l; [assumption|].
    assert (0 <= y_hi * (x - x_lo)) by (apply Qmult_le_0_compat; lra).
    assert (0 <= y_lo * (x_hi - x)) by (apply Qmult_le_0_compat; lra).
    lra.
  - assert (E : x - x_lo == 0) by lra.
    rewrite E. lra.
Qed.

Lemma interp1d_nonneg (xs ys : list Q) (x : Q) :
  (1 <= List.length xs)%nat ->
  Forall (fun y => 0 <= y) ys ->
  hd 0 xs <= x -> x <= last xs 0 ->
  0 <= interp1d xs ys x.
Proof.
  intros Hn Hys Hhd Hlast. unfold interp1d.
  rewrite last_is_nth in Hlast.
  assert (H0 : hd 0 xs = nth 0 xs 0) by now destruct xs.
  rewrite H0 in Hhd.
  pose proof (searchsorted_bound xs x) as Hb.
  pose proof (searchsorted_below xs x) as Hbelow.
  pose proof (searchsorted_at xs x) as Hat.
  set (i := searchsorted xs x) in *.
  set (n := List.length xs) in *.
  apply chord_nonneg; try (apply nth_nonneg; assumption).
  - (* the lower sample is not above the query *)
    destruct (Nat.eq_dec (clip i 1 (n - 1) - 1) 0) as [E|E].
    + rewrite E. assumption.
    + apply Qlt_le_weak, Hbelow. unfold clip in *. lia.
  - intros Hlo.
    destruct (Nat.eq_dec i 0) as [E|E].
    + (* the query is the first sample: the lower sample is that one *)
      exfalso. assert (E1 : (clip i 1 (n - 1) - 1 = 0)%nat)
        by (unfold clip; lia).
      rewrite E1 in Hlo. specialize (Hat ltac:(lia)). rewrite E in Hat. lra.
    + destruct (Nat.eq_dec i n) as [E'|E'].
      * exfalso. specialize (Hbelow (n - 1)%nat ltac:(lia)). lra.
      * assert (E1 : clip i 1 (n - 1) = i) by (unfold clip; lia).
        rewrite E1. apply Hat. lia.
Qed.

Lemma sort_values_nonneg (df : frame) :
  Forall (fun r => 0 <= dE_dx r) df ->
  Forall (fun r => 0 <= dE_dx r) (sort_values df).
Proof.
  rewrite !Forall_forall. intros H r Hr. apply H.
  apply (Permutation_in r (Permutation_sym (sort_values_perm df)) Hr).
Qed.

(** Between 0 and the largest sampled energy the interpolated stopping
    power is not negative when no sample is. *)
Lemma get_dedx_nonneg (df : frame) (self : BirksCalculator) (x : Q) :
  init df = Ok self ->
  Forall (fun r => 0 <= dE_dx r) df ->
  0 <= x <= max_energy self ->
  0 <= get_dedx self x.
Proof.
  intros Hinit Hdf [Hx0 Hx1]. unfold init in Hinit.
  pose proof (sort_values_nonneg df Hdf) as Hs.
  destruct (sort_values df) as [|r0 rows] eqn:Es; [discriminate|].
  injection Hinit as <-. unfold get_dedx. cbn [energy dedx max_energy] in *.
  destruct (Qlt_bool 0 (Energy_MeV r0)) eqn:T; cases_on_tests.
  - apply interp1d_nonneg; try assumption.
    + simpl. lia.
    + rewrite Forall_map. constructor; [simpl; lra | exact Hs].
  - apply interp1d_nonneg; try assumption.
    + simpl. lia.
    + rewrite Forall_map. exact Hs.
    + simpl. lra.
Qed.

Section WithinTable.

Variable quad : quad_type.
Hypothesis laws : integral_laws quad.

(** For a table without negative stopping power and an initial energy
    inside it, as the dashboard asks for, the quenching factor lies in
    [0, 1]. *)
Theorem quenching_factor_within_table
    (df : frame) (self : BirksCalculator) (E kb q : Q) :
  init df = Ok self ->
  Forall (fun r => 0 <= dE_dx r) df ->
  0 < E -> E <= max_energy self -> 0 <= kb ->
  calculate_quenching_factor quad self E kb = Ok q ->
  0 <= q <= 1.
Proof.
  intros Hinit Hdf HE Hmax Hk Hq.
  assert (Hd : forall x, 0 <= x <= E -> 0 <= get_dedx self x)
    by (intros x Hx; apply (get_dedx_nonneg df); auto; lra).
  rewrite quenching_factor_unfold in Hq by assumption.
  destruct (calculate_visible_energy quad self E kb) as [v|e] eqn:Hv;
    [|discriminate].
  cbn [bind] in Hq. injection Hq as <-.
  pose proof (visible_energy_nonneg quad laws _ _ _ _ HE Hk Hv).
  pose proof (visible_energy_le_initial quad laws _ _ _ _ HE Hk Hd Hv).
  split; [apply Qle_shift_div_l | apply Qle_shift_div_r]; lra.
Qed.

(** Under the same conditions it does not increase with [kB]. *)
Theorem quenching_factor_antitone_within_table
    (df : frame) (self : BirksCalculator) (E kb1 kb2 q1 q2 : Q) :
  init df = Ok self ->
  Forall (fun r => 0 <= dE_dx r) df ->
  0 < E -> E <= max_energy self -> 0 <= kb1 -> kb1 < kb2 ->
  calculate_quenching_factor quad self E kb1 = Ok q1 ->
  calculate_quenching_factor quad self E kb2 = Ok q2 ->
  q2 <= q1.
Proof.
  intros Hinit Hdf HE Hmax Hk H12 H1 H2.
  assert (Hd : forall x, 0 <= x <= E -> 0 <= get_dedx self x)
    by (intros x Hx; apply (get_dedx_nonneg df); auto; lra).
  rewrite quenching_factor_unfold in H1, H2 by assumption.
  destruct (calculate_visible_energy quad self E kb1) as [v1|] eqn:Hv1;
    [|discriminate].
  destruct (calculate_visible_energy quad self E kb2) as [v2|] eqn:Hv2;
    [|discriminate].
  cbn [bind] in H1, H2. injection H1 as <-. injection H2 as <-.
  assert (Hv : v2 <= v1)
    by (apply (visible_energy_antitone quad laws self E kb1 kb2); auto; lra).
  unfold Qdiv. apply Qmult_le_compat_r; [assumption|].
  apply Qinv_le_0_compat. lra.
Qed.

End WithinTable.

Lemma quenching_factor_within_table_witness :
  exists q,
    calculate_quenching_factor (midpoint_rule 4) (calculator_of peak_frame)
      2 0.4 = Ok q /\
    0 <= q <= 1.
Proof.
  eexists. split; [vm_compute; reflexivity|].
  apply (quenching_factor_within_table (midpoint_rule 4) (midpoint_rule_laws 4)
           peak_frame (calculator_of peak_frame) 2 0.4);
    [reflexivity | repeat constructor; discriminate | reflexivity
    | discriminate | discriminate | vm_compute; reflexivity].
Defined.

Lemma quenching_factor_antitone_within_table_witness :
  exists q1 q2,
    calculate_quenching_factor (midpoint_rule 4) (calculator_of peak_frame)
      2 0 = Ok q1 /\
    calculate_quenching_factor (midpoint_rule 4) (calculator_of peak_frame)
      2 0.4 = Ok q2 /\
    q2 <= q1.
Proof.
  eexists. eexists.
  split; [vm_compute; reflexivity|]. split; [vm_compute; reflexivity|].
  apply (quenching_factor_antitone_within_table
           (midpoint_rule 4) (midpoint_rule_laws 4)
           peak_frame (calculator_of peak_frame) 2 0 0.4);
    [reflexivity | repeat constructor; discriminate | reflexivity
    | discriminate | discriminate | reflexivity
    | vm_compute; reflexivity | vm_compute; reflexivity].
Defined.

End PhysicsFacts.

(** ** More of the parser *)

Module ParserCoverage.

Import PyStr Re SrimParser PyStrFacts ReFacts ParserFacts.

Lemma find_from_none {A : Type} (q : A -> bool) (l : list A) :
  forall i, find_from (fun _ => q) i l = None <-> (forall x, In x l -> q x = false).
Proof.
  induction l as [|x l IH]; intros i; simpl.
  - split; [intros _ x []|reflexivity].
  - destruct (q x) eqn:E.
    + split; [discriminate|]. intros H. specialize (H x (or_introl eq_refl)).
      congruence.
    + rewrite IH. split.
      * intros H y [<-|Hy]; auto.
      * intros H y Hy. apply H. now right.
Qed.

Lemma scan_started (lines : list string) :
  forall i s, fst (scan i (Some s) lines) = Some s.
Proof.
  induction lines as [|line rest IH]; intros i s; simpl; [reflexivity|].
  destruct (matches energy_pattern line); simpl; [apply IH|].
  destruct (negb (is_empty (strip line))); simpl; [|apply IH].
  destruct (negb (is_separator line)); [apply IH|reflexivity].
Qed.

Lemma scan_none (lines : list string) :
  forall i,
    fst (scan i None lines) = None <->
    (forall line, In line lines -> matches energy_pattern line = false).
Proof.
  induction lines as [|line rest IH]; intros i; simpl.
  - split; [intros _ x []|reflexivity].
  - destruct (matches energy_pattern line) eqn:E.
    + rewrite scan_started. split; [discriminate|].
      intros H. specialize (H line (or_introl eq_refl)). congruence.
    + rewrite IH. split.
      * intros H y [<-|Hy]; auto.
      * intros H y Hy. apply H. now right.
Qed.


(** The rows read from a list of lines, in the order of the lines. *)
Lemma parse_lines_rows (lines : list string) :
  forall rows,
    parse_lines lines = Ok rows ->
    (forall r, In r rows ->
       exists line, In line lines /\ parse_line line = Ok (Some r)) /\
    (List.length rows <= List.length lines)%nat.
Proof.
  induction lines as [|line rest IH]; intros rows H; simpl in H.
  - injection H as <-. split; [intros r []|simpl; lia].
  - destruct (parse_line line) as [o|e] eqn:Hl; cbn [bind] in H; [|discriminate].
    destruct (parse_lines rest) as [rows'|e] eqn:Hr; cbn [bind] in H;
      [|discriminate].
    injection H as <-. destruct (IH rows' eq_refl) as [Hin Hlen].
    destruct o as [x|]; split; simpl; try lia.
    + intros r [<-|Hr']; [exists line; auto|].
      destruct (Hin r Hr') as [l [Hl1 Hl2]]. exists l. auto.
    + intros r Hr'. destruct (Hin r Hr') as [l [Hl1 Hl2]]. exists l. auto.
Qed.


Lemma slice_incl {A : Type} (a b : nat) (l : list A) (x : A) :
  In x (slice a b l) -> In x l.
Proof.
  unfold slice. intros H.
  assert (H1 : In x (skipn a l)).
  { rewrite <- (firstn_skipn (b - a) (skipn a l)). apply in_or_app. now left. }
  rewrite <- (firstn_skipn a l). apply in_or_app. now right.
Qed.

Lemma slice_length {A : Type} (a b : nat) (l : list A) :
  (List.length (slice a b l) <= List.length l)%nat.
Proof.
  unfold slice. rewrite length_firstn, length_skipn. lia.
Qed.

(** [parse_srim_text], read as its three steps. *)
Lemma parse_srim_text_steps (content : string) :
  exists start stop,
    (start = None <->
     forall line, In line (split_lines (strip content)) ->
       is_header line = false /\ matches energy_pattern line = false) /\
    parse_srim_text content =
    match start with
    | None => Raise ValueError_no_data_section
    | Some s =>
        rows <- parse_lines (slice s stop (split_lines (strip content))) ;;
        if (List.length rows =? 0)%nat then Raise ValueError_no_data_points
        else Ok (sort_values rows)
    end.
Proof.
  unfold parse_srim_text. set (lines := split_lines (strip content)).
  unfold header_start, find_index. simpl skipn.
  destruct (find_from (fun _ => is_header) 0 lines) as [i|] eqn:Hh.
  - set (s := match find_from (fun _ : nat => is_separator) (i + 1)
                         (skipn (i + 1) lines) with
              | Some j => (j + 1)%nat
              | None => (i + 1)%nat
              end).
    assert (Hs : match find_from (fun _ : nat => is_separator) (i + 1)
                         (skipn (i + 1) lines) with
                 | Some j => Some (j + 1)%nat
                 | None => Some (i + 1)%nat
                 end = Some s).
    { unfold s.
      now destruct (find_from (fun _ : nat => is_separator) (i + 1)
                      (skipn (i + 1) lines)). }
    rewrite Hs.
    exists (Some s),
      (match header_end s lines with None => List.length lines | Some e => e end).
    split; [|reflexivity].
    split; [discriminate|]. intros H. exfalso.
    assert (Hn : find_from (fun _ => is_header) 0 lines = None).
    { apply find_from_none. intros x Hx. now apply H. }
    congruence.
  - destruct (scan 0 None lines) as [start stop] eqn:Hsc.
    exists start,
      (match stop with None => List.length lines | Some e => e end).
    split; [|reflexivity].
    assert (Hstart : start = fst (scan 0 None lines)) by now rewrite Hsc.
    rewrite Hstart, scan_none.
    pose proof (proj1 (find_from_none is_header lines 0) Hh) as Hno.
    split.
    + intros H line Hl. split; auto.
    + intros H line Hl. now apply H.
Qed.


Lemma parsed_rows_come_from_lines_aux (content : string) (df : frame) :
  parse_srim_text content = Ok df ->
  (forall r, In r df ->
     exists line,
       In line (split_lines (strip content)) /\ parse_line line = Ok (Some r)) /\
  (List.length df <= List.length (split_lines (strip content)))%nat.
Proof.
  destruct (parse_srim_text_steps content) as (start & stop & _ & ->).
  destruct start as [s|]; [|discriminate].
  destruct (parse_lines _) as [rows|e] eqn:Hp; cbn [bind]; [|discriminate].
  destruct (List.length rows =? 0)%nat; [discriminate|].
  intros H. injection H as <-.
  destruct (parse_lines_rows _ _ Hp) as [Hin Hlen]. split.
  - intros r Hr. apply (Permutation_in r (Permutation_sym (sort_values_perm rows))) in Hr.
    destruct (Hin r Hr) as [l [H1 H2]]. exists l. split; [|exact H2].
    now apply slice_incl in H1.
  - rewrite sort_values_length. pose proof (slice_length s stop (split_lines (strip content))).
    lia.
Qed.

(** Every row of the table returned was read from a line of the text,
    and the table has no more rows than the text has lines. *)
Theorem parsed_rows_come_from_lines (content : string) (df : frame) :
  parse_srim_text content = Ok df ->
  (forall r, In r df ->
     exists line,
       In line (split_lines (strip content)) /\ parse_line line = Ok (Some r)) /\
  (List.length df <= List.length (split_lines (strip content)))%nat.
Proof. exact (parsed_rows_come_from_lines_aux content df). Qed.


Lemma lookup_in_table (u : string) :
  (exists factor, lookup u conversion_factors = Some factor) <->
  In u ["ev"; "kev"; "mev"; "gev"; "tev"].
Proof.
  unfold conversion_factors. simpl.
  destruct (String.eqb_spec u "ev") as [->|H1]; [split; eauto|].
  destruct (String.eqb_spec u "kev") as [->|H2]; [split; eauto|].
  destruct (String.eqb_spec u "mev") as [->|H3]; [split; eauto 6|].
  destruct (String.eqb_spec u "gev") as [->|H4]; [split; eauto 6|].
  destruct (String.eqb_spec u "tev") as [->|H5]; [split; eauto 7|].
  split.
  - intros [f Hf]. discriminate.
  - intros [H|[H|[H|[H|[H|[]]]]]]; congruence.
Qed.

(** The unit of [_convert_to_mev] is read without regard to case and
    to surrounding blanks; the call fails exactly for the other units,
    naming the unit as read; the five factors agree with one another
    (1 TeV = 1e3 GeV = 1e6 MeV = 1e9 keV = 1e12 eV); and the conversion
    keeps the order of the values. *)
Theorem convert_to_mev_units (value : Q) :
  (forall unit,
      (exists mev, _convert_to_mev value unit = Ok mev) <->
      In (lower (strip unit)) ["ev"; "kev"; "mev"; "gev"; "tev"]) /\
  (forall unit e,
      _convert_to_mev value unit = Raise e ->
      e = ValueError_unknown_energy_unit (lower (strip unit))) /\
  (exists a b c d e,
      _convert_to_mev value "TeV" = Ok a /\
      _convert_to_mev (value * 1000) "GeV" = Ok b /\
      _convert_to_mev (value * 1000000) "MeV" = Ok c /\
      _convert_to_mev (value * 1000000000) "keV" = Ok d /\
      _convert_to_mev (value * 1000000000000) "eV" = Ok e /\
      (a == b /\ b == c /\ c == d /\ d == e)%Q) /\
  (forall unit other a b,
      (value <= other)%Q ->
      _convert_to_mev value unit = Ok a ->
      _convert_to_mev other unit = Ok b ->
      (a <= b)%Q).
Proof.
  split; [|split; [|split]].
  - intros unit. rewrite <- lookup_in_table. unfold _convert_to_mev.
    destruct (lookup (lower (strip unit)) conversion_factors) as [f|]; split.
    + intros _. now exists f.
    + intros _. now exists (value * f)%Q.
    + intros [mev H]. discriminate.
    + intros [f H]. discriminate.
  - intros unit e. unfold _convert_to_mev.
    destruct (lookup (lower (strip unit)) conversion_factors); [discriminate|].
    intros H. now injection H as <-.
  - do 5 eexists. repeat split; try reflexivity; ring.
  - intros unit other a b Hle. unfold _convert_to_mev.
    destruct (lookup (lower (strip unit)) conversion_factors) as [f|] eqn:Hf;
      [|discriminate].
    intros Ha Hb. injection Ha as <-. injection Hb as <-.
    apply Qmult_le_compat_r; [assumption|].
    apply Qlt_le_weak. revert Hf. unfold conversion_factors. simpl.
    repeat match goal with
           | |- context [if ?t then _ else _] => destruct t
           end; intros H; try discriminate; injection H as <-; reflexivity.
Qed.

Lemma parsed_rows_come_from_lines_witness :
  parse_srim_text shuffled_text = Ok shuffled_frame /\
  (forall r, In r shuffled_frame ->
     exists line,
       In line (split_lines (strip shuffled_text)) /\
       parse_line line = Ok (Some r)) /\
  (List.length shuffled_frame
   <= List.length (split_lines (strip shuffled_text)))%nat.
Proof.
  assert (H : parse_srim_text shuffled_text = Ok shuffled_frame)
    by (vm_compute; reflexivity).
  split; [exact H|].
  exact (parsed_rows_come_from_lines shuffled_text shuffled_frame H).
Defined.


End ParserCoverage.

(** ** Validation of a parsed table *)

Module ValidationFacts.

Import PyStr Re SrimParser PyStrFacts ReFacts ParserFacts ParserCoverage.
Import Validation.

Local Open Scope Q_scope.

Lemma Qlt_bool_true (x y : Q) : Qlt_bool x y = true <-> x < y.
Proof.
  unfold Qlt_bool. rewrite negb_true_iff. split.
  - intros H. apply Qnot_le_lt. intros Hle.
    apply Qle_bool_iff in Hle. congruence.
  - intros H. destruct (Qle_bool y x) eqn:E; [|reflexivity].
    apply Qle_bool_iff in E. lra.
Qed.

(** *** The minimum of a column *)

Lemma fold_qmin_negative (values : list Q) :
  forall x,
    fold_left qmin values x < 0 <-> x < 0 \/ Exists (fun y => y < 0) values.
Proof.
  induction values as [|y values IH]; intros x; simpl.
  - split; [tauto|]. intros [H|H]; [assumption|inversion H].
  - rewrite IH, Exists_cons. unfold qmin.
    destruct (Qle_bool x y) eqn:E.
    + apply Qle_bool_iff in E. split; [tauto|].
      intros [H|[H|H]]; auto. left. lra.
    + assert (Hyx : y < x).
      { apply Qnot_le_lt. intros H. apply Qle_bool_iff in H. congruence. }
      split; [tauto|]. intros [H|[H|H]]; auto. left. lra.
Qed.

Lemma series_min_negative (values : list Q) :
  Qlt_bool (series_min values) 0 = true <-> Exists (fun y => y < 0) values.
Proof.
  rewrite Qlt_bool_true. destruct values as [|x values]; simpl.
  - split; [lra|]. intros H. inversion H.
  - rewrite fold_qmin_negative, Exists_cons. tauto.
Qed.

Lemma series_min_not_negative (values : list Q) :
  Qlt_bool (series_min values) 0 = false <-> Forall (fun y => 0 <= y) values.
Proof.
  split.
  - intros H. apply Forall_forall. intros y Hy.
    destruct (Qlt_le_dec y 0) as [Hn|Hn]; [|assumption].
    assert (E : Qlt_bool (series_min values) 0 = true).
    { apply series_min_negative. apply Exists_exists. eauto. }
    congruence.
  - intros H. destruct (Qlt_bool (series_min values) 0) eqn:E; [|reflexivity].
    apply series_min_negative, Exists_exists in E as [y [Hy Hn]].
    rewrite Forall_forall in H. specialize (H y Hy). lra.
Qed.

(** *** [validate_dataframe] *)

Lemma validate_dataframe_rows_aux (rows : frame) :
  (validate_dataframe (of_rows rows) = inr true <->
   rows <> [] /\
   Forall (fun r => 0 <= Energy_MeV r) rows /\
   Forall (fun r => 0 <= dE_dx r) rows) /\
  (validate_dataframe (of_rows rows) = inl ValueError_empty_frame <->
   rows = []) /\
  (validate_dataframe (of_rows rows) = inl ValueError_negative_energy <->
   Exists (fun r => Energy_MeV r < 0) rows) /\
  (validate_dataframe (of_rows rows) = inl ValueError_negative_dedx <->
   Forall (fun r => 0 <= Energy_MeV r) rows /\
   Exists (fun r => dE_dx r < 0) rows).
Proof.
  unfold validate_dataframe, of_rows. cbn [forallb required_columns has_column
    existsb fst String.eqb Ascii.eqb Bool.eqb orb andb negb len column].
  rewrite length_map.
  destruct rows as [|r rows].
  { simpl. repeat split; try discriminate; try tauto;
      try (intros H; inversion H; fail);
      try (intros [H _]; congruence);
      intros [_ H]; inversion H. }
  cbn [List.length Nat.eqb].
  set (l := r :: rows).
  assert (He : Exists (fun y => y < 0) (map Energy_MeV l) <->
               Exists (fun r => Energy_MeV r < 0) l)
    by (rewrite Exists_map; tauto).
  assert (Hd : Exists (fun y => y < 0) (map dE_dx l) <->
               Exists (fun r => dE_dx r < 0) l)
    by (rewrite Exists_map; tauto).
  assert (He' : Forall (fun y => 0 <= y) (map Energy_MeV l) <->
                Forall (fun r => 0 <= Energy_MeV r) l)
    by (rewrite Forall_map; tauto).
  assert (Hd' : Forall (fun y => 0 <= y) (map dE_dx l) <->
                Forall (fun r => 0 <= dE_dx r) l)
    by (rewrite Forall_map; tauto).
  assert (Hl : l <> []) by (unfold l; discriminate).
  destruct (Qlt_bool (series_min (map Energy_MeV l)) 0) eqn:TE.
  - pose proof (proj1 (series_min_negative _) TE) as HE. apply He in HE.
    assert (Hno : ~ Forall (fun r => 0 <= Energy_MeV r) l).
    { intros HF. apply Exists_exists in HE as [x [Hx Hn]].
      rewrite Forall_forall in HF. specialize (HF x Hx). lra. }
    split; [|split; [|split]]; split; intros;
      first [discriminate | congruence | tauto].
  - pose proof (proj1 (series_min_not_negative _) TE) as HE. apply He' in HE.
    assert (Hno : ~ Exists (fun r => Energy_MeV r < 0) l).
    { intros HX. apply Exists_exists in HX as [x [Hx Hn]].
      rewrite Forall_forall in HE. specialize (HE x Hx). lra. }
    destruct (Qlt_bool (series_min (map dE_dx l)) 0) eqn:TD.
    + pose proof (proj1 (series_min_negative _) TD) as HD. apply Hd in HD.
      assert (Hno' : ~ Forall (fun r => 0 <= dE_dx r) l).
      { intros HF. apply Exists_exists in HD as [x [Hx Hn]].
        rewrite Forall_forall in HF. specialize (HF x Hx). lra. }
      split; [|split; [|split]]; split; intros;
        first [discriminate | congruence | tauto].
    + pose proof (proj1 (series_min_not_negative _) TD) as HD. apply Hd' in HD.
      assert (Hno' : ~ Exists (fun r => dE_dx r < 0) l).
      { intros HX. apply Exists_exists in HX as [x [Hx Hn]].
        rewrite Forall_forall in HD. specialize (HD x Hx). lra. }
      split; [|split; [|split]]; split; intros;
        first [discriminate | congruence | tauto].
Qed.

(** What [validate_dataframe] does with a frame of rows: it returns
    [True] exactly when the frame has a row and no energy and no
    stopping power is negative; it reports the empty frame first, then
    a negative energy, then a negative stopping power. *)
Theorem validate_dataframe_rows (rows : frame) :
  (validate_dataframe (of_rows rows) = inr true <->
   rows <> [] /\
   Forall (fun r => 0 <= Energy_MeV r) rows /\
   Forall (fun r => 0 <= dE_dx r) rows) /\
  (validate_dataframe (of_rows rows) = inl ValueError_empty_frame <->
   rows = []) /\
  (validate_dataframe (of_rows rows) = inl ValueError_negative_energy <->
   Exists (fun r => Energy_MeV r < 0) rows) /\
  (validate_dataframe (of_rows rows) = inl ValueError_negative_dedx <->
   Forall (fun r => 0 <= Energy_MeV r) rows /\
   Exists (fun r => dE_dx r < 0) rows).
Proof. exact (validate_dataframe_rows_aux rows). Qed.

Lemma validate_of_rows_cases (rows : frame) :
  validate_dataframe (of_rows rows) = inr true \/
  validate_dataframe (of_rows rows) = inl ValueError_empty_frame \/
  validate_dataframe (of_rows rows) = inl ValueError_negative_energy \/
  validate_dataframe (of_rows rows) = inl ValueError_negative_dedx.
Proof.
  unfold validate_dataframe, of_rows. cbn [forallb required_columns has_column
    existsb fst String.eqb Ascii.eqb Bool.eqb orb andb negb len column].
  destruct (List.length (map Energy_MeV rows) =? 0)%nat; [tauto|].
  destruct (Qlt_bool (series_min (map Energy_MeV rows)) 0); [tauto|].
  destruct (Qlt_bool (series_min (map dE_dx rows)) 0); tauto.
Qed.

(** A frame that lacks one of the two columns is refused for that,
    whatever it holds. *)
Theorem validate_dataframe_missing_column (df : DataFrame) :
  has_column "Energy_MeV" df = false \/ has_column "dE_dx" df = false ->
  validate_dataframe df = inl ValueError_missing_columns.
Proof.
  intros H. unfold validate_dataframe. cbn [forallb required_columns].
  destruct H as [-> | ->]; simpl; [reflexivity|].
  now rewrite andb_false_r.
Qed.

(** *** What the parser hands to the validation *)

Lemma cls_number_not_space (c : ascii) :
  cls_number c = true -> isspace c = false.
Proof.
  unfold cls_number, char_in, isdigit, isspace, code.
  destruct c as [[] [] [] [] [] [] [] []]; vm_compute; congruence.
Qed.

Lemma cls_number_not_sign (c : ascii) (s : string) :
  cls_number c = true -> sign (String c s) = (1%Z, String c s).
Proof.
  unfold cls_number, char_in, isdigit, code.
  destruct c as [[] [] [] [] [] [] [] []]; vm_compute; congruence.
Qed.

Lemma rstrip_no_space (s : string) :
  all_chars (fun c => negb (isspace c)) s = true -> rstrip s = s.
Proof.
  induction s as [|c s IH]; simpl; [reflexivity|].
  intros H. apply andb_true_iff in H as [Hc Hs].
  rewrite (IH Hs). apply negb_true_iff in Hc. rewrite Hc.
  now rewrite andb_false_r.
Qed.

Lemma strip_number (s : string) :
  all_chars cls_number s = true -> strip s = s.
Proof.
  intros H.
  assert (Hn : all_chars (fun c => negb (isspace c)) s = true).
  { induction s as [|c s IH]; simpl in *; [reflexivity|].
    apply andb_true_iff in H as [Hc Hs].
    rewrite (cls_number_not_space c Hc). simpl. now apply IH. }
  unfold strip. rewrite (rstrip_no_space s Hn).
  destruct s as [|c s]; [reflexivity|]. simpl in *.
  apply andb_true_iff in H as [Hc _].
  now rewrite (cls_number_not_space c Hc).
Qed.

Lemma digits_nonneg (s : string) :
  forall acc n v k rest,
    digits s acc n = (v, k, rest) -> (0 <= acc)%Z -> (0 <= v)%Z.
Proof.
  induction s as [|c s IH]; intros acc n v k rest H Hacc; cbn [digits] in H.
  - injection H as <- _ _. assumption.
  - destruct (isdigit c).
    + eapply IH; [exact H|]. lia.
    + injection H as <- _ _. assumption.
Qed.

Lemma scale_nonneg (m e : Z) : (0 <= m)%Z -> 0 <= scale m e.
Proof.
  intros Hm. unfold scale. destruct (0 <=? e)%Z eqn:E.
  - change 0 with (inject_Z 0). rewrite <- Zle_Qle.
    apply Z.mul_nonneg_nonneg; [assumption|].
    apply Z.pow_nonneg. lia.
  - unfold Qle. cbn [Qnum Qden]. rewrite Z.mul_0_l, Z.mul_1_r. assumption.
Qed.

(** [float] of a text of digits and points is not negative. *)
Lemma py_float_number_nonneg (text : string) (v : Q) :
  all_chars cls_number text = true ->
  py_float text = Ok v -> 0 <= v.
Proof.
  intros Hall. unfold py_float. rewrite (strip_number text Hall).
  assert (Hsign : sign text = (1%Z, text)).
  { destruct text as [|c s]; [reflexivity|]. simpl in Hall.
    apply andb_true_iff in Hall as [Hc _]. now apply cls_number_not_sign. }
  rewrite Hsign.
  destruct (digits text 0 0) as [[ip ni] s2] eqn:D1.
  pose proof (digits_nonneg _ _ _ _ _ _ D1 ltac:(lia)) as Hip.
  assert (Hm : forall m nf s3,
             match s2 with
             | String "." s2' => digits s2' ip 0
             | _ => (ip, 0%nat, s2)
             end = (m, nf, s3) -> (0 <= m)%Z).
  { intros m nf s3 H. destruct s2 as [|c s2'].
    - injection H as <- _ _. assumption.
    - destruct (ascii_dec c ".") as [->|Hne].
      + apply digits_nonneg in H; assumption.
      + assert (E : match c with
                    | "."%char => digits s2' ip 0
                    | _ => (ip, 0%nat, String c s2')
                    end = (ip, 0%nat, String c s2')).
        { destruct c as [[] [] [] [] [] [] [] []]; try reflexivity.
          now elim Hne. }
        rewrite E in H. injection H as <- _ _. assumption. }
  destruct (match s2 with
            | String "." s2' => digits s2' ip 0
            | _ => (ip, 0%nat, s2)
            end) as [[m nf] s3] eqn:D2.
  specialize (Hm m nf s3 eq_refl).
  destruct (ni + nf =? 0)%nat; [discriminate|].
  destruct s3 as [|c s4].
  - intros H. injection H as <-. apply scale_nonneg. destruct m; lia.
  - destruct (is_exponent_mark c); [|discriminate].
    destruct (sign s4) as [esg s5].
    destruct (digits s5 0 0) as [[ev ne] s6].
    destruct ((ne =? 0)%nat || negb (is_empty s6)); [discriminate|].
    intros H. injection H as <-. apply scale_nonneg. destruct m; lia.
Qed.

Lemma lookup_factor_positive (u : string) (factor : Q) :
  lookup u conversion_factors = Some factor -> 0 < factor.
Proof.
  unfold conversion_factors. simpl.
  repeat match goal with
         | |- context [if ?b then _ else _] => destruct b
         end; intros H; try discriminate; injection H as <-; reflexivity.
Qed.

Lemma parse_line_energy_nonneg (line : string) (r : row) :
  parse_line line = Ok (Some r) -> 0 <= Energy_MeV r.
Proof.
  unfold parse_line.
  destruct (is_empty (strip line)); [discriminate|].
  destruct (re_match line_pattern line) as [m|] eqn:Hm; [|discriminate].
  pose proof Hm as Hshape.
  apply line_pattern_shape in Hshape
    as (p0 & p1 & p2 & p3 & p4 & p5 & p6 & p7 & rest & Hmm & _ & _ & H1 & _).
  subst m. rewrite group_1_line.
  destruct (py_float p1) as [v|e1] eqn:Hv; cbn [bind]; [|discriminate].
  destruct (py_float (group 3 line_pattern _)) as [d|e3]; cbn [bind];
    [|discriminate].
  unfold _convert_to_mev.
  destruct (lookup _ conversion_factors) as [factor|] eqn:Hf; cbn [bind];
    [|discriminate].
  intros H. injection H as <-. cbn [Energy_MeV].
  apply Qmult_le_0_compat.
  - now apply (py_float_number_nonneg p1).
  - apply Qlt_le_weak. now apply (lookup_factor_positive _ _ Hf).
Qed.

(** A table returned by the parser has a row and no negative energy:
    the validation can refuse it only for a negative stopping power,
    which a text with a minus sign in the stopping column gives. *)
Theorem parsed_table_validation (content : string) (df : frame) :
  parse_srim_text content = Ok df ->
  Forall (fun r => 0 <= Energy_MeV r) df /\
  (validate_dataframe (of_rows df) = inr true \/
   validate_dataframe (of_rows df) = inl ValueError_negative_dedx) /\
  (validate_dataframe (of_rows df) = inr true <->
   Forall (fun r => 0 <= dE_dx r) df).
Proof.
  intros Hp.
  assert (Hne : df <> []).
  { destruct (parse_srim_text_steps content) as (start & stop & _ & E).
    rewrite E in Hp. destruct start as [s|]; [|discriminate].
    destruct (parse_lines _) as [rows|e]; cbn [bind] in Hp; [|discriminate].
    destruct (List.length rows =? 0)%nat eqn:Hn; [discriminate|].
    injection Hp as <-. intros Hnil.
    apply (f_equal (@List.length row)) in Hnil.
    rewrite sort_values_length in Hnil. simpl in Hnil.
    rewrite Hnil in Hn. discriminate. }
  assert (HE : Forall (fun r => 0 <= Energy_MeV r) df).
  { apply Forall_forall. intros r Hr.
    destruct (proj1 (parsed_rows_come_from_lines_aux content df Hp) r Hr)
      as [line [_ Hl]].
    now apply (parse_line_energy_nonneg line). }
  destruct (validate_dataframe_rows_aux df) as (Hok & Hempty & Hnege & Hnegd).
  split; [exact HE|]. split.
  - destruct (validate_of_rows_cases df) as [V|[V|[V|V]]]; auto.
    + now apply Hempty in V.
    + apply Hnege in V. exfalso.
      apply Exists_exists in V as [x [Hx Hn]].
      rewrite Forall_forall in HE. specialize (HE x Hx). lra.
  - rewrite Hok. tauto.
Qed.

Lemma parsed_table_validation_witness :
  exists df,
    parse_srim_text
      ("Energy  dE/dx" ++ LF ++ "1.0 MeV   -5.0" ++ LF ++ "2.0 MeV   3.0")
    = Ok df /\
    validate_dataframe (of_rows df) = inl ValueError_negative_dedx /\
    Forall (fun r => 0 <= Energy_MeV r) df /\
    (validate_dataframe (of_rows df) = inr true \/
     validate_dataframe (of_rows df) = inl ValueError_negative_dedx) /\
    (validate_dataframe (of_rows df) = inr true <->
     Forall (fun r => 0 <= dE_dx r) df).
Proof.
  eexists. split; [vm_compute; reflexivity|].
  split; [vm_compute; reflexivity|].
  apply (parsed_table_validation
           ("Energy  dE/dx" ++ LF ++ "1.0 MeV   -5.0" ++ LF ++ "2.0 MeV   3.0")).
  vm_compute; reflexivity.
Defined.

End ValidationFacts.

(** ** More of the calculator *)

Module CalculatorFacts.

Import Physics PhysicsFacts.

Local Open Scope Q_scope.

(** *** The constructor *)

Lemma sort_values_nil (df : frame) : sort_values df = [] <-> df = [].
Proof.
  split; [|now intros ->].
  intros H. apply (f_equal (@List.length row)) in H.
  rewrite sort_values_length in H. now destruct df.
Qed.

Lemma energy_le_sorted_map (table : frame) :
  Sorted energy_le table -> Sorted Qle (map Energy_MeV table).
Proof.
  induction 1 as [|r table Hs IH Hhd]; simpl; constructor; [assumption|].
  destruct Hhd; simpl; constructor. assumption.
Qed.

Lemma sorted_bounds (xs : list Q) :
  Sorted Qle xs -> forall x, In x xs -> hd 0 xs <= x /\ x <= last xs 0.
Proof.
  intros Hs. apply Sorted_StronglySorted in Hs; [|intros a b c; apply Qle_trans].
  induction Hs as [|e xs Hs IH Hall]; intros x Hx; [destruct Hx|].
  rewrite Forall_forall in Hall.
  destruct Hx as [<-|Hx].
  - split; [simpl; lra|].
    destruct xs as [|e' xs]; [simpl; lra|].
    change (last (e :: e' :: xs) 0) with (last (e' :: xs) 0).
    destruct (IH e' (or_introl eq_refl)) as [_ H].
    specialize (Hall e' (or_introl eq_refl)). lra.
  - split; [simpl; now apply Hall|].
    destruct xs as [|e' xs]; [destruct Hx|].
    change (last (e :: e' :: xs) 0) with (last (e' :: xs) 0).
    now apply IH.
Qed.

(** The table a calculator is built on: the sorted rows, after the
    origin when the smallest energy is positive. *)
Lemma init_table (df : frame) (self : BirksCalculator) :
  init df = Ok self ->
  exists r0 rows table,
    sort_values df = r0 :: rows /\
    table = (if Qlt_bool 0 (Energy_MeV r0)
             then mkRow 0 0 :: r0 :: rows else r0 :: rows) /\
    Sorted energy_le table /\
    energy self = map Energy_MeV table /\
    dedx self = map dE_dx table /\
    max_energy self = last (map Energy_MeV table) 0 /\
    min_energy self = hd 0 (map Energy_MeV table).
Proof.
  unfold init. pose proof (sort_values_sorted df) as Hs.
  destruct (sort_values df) as [|r0 rows] eqn:E; [discriminate|].
  intros H. injection H as <-.
  exists r0, rows. eexists. split; [reflexivity|]. split; [reflexivity|].
  split; [|repeat split].
  destruct (Qlt_bool 0 (Energy_MeV r0)) eqn:T; [|assumption].
  cases_on_tests. constructor; [assumption|].
  constructor. unfold energy_le. simpl. lra.
Qed.

Lemma init_invariants_aux (df : frame) :
  (init df = Raise IndexError_empty_frame <-> df = []) /\
  (forall e, init df = Raise e -> e = IndexError_empty_frame) /\
  (forall self,
      init df = Ok self ->
      Sorted Qle (energy self) /\
      List.length (energy self) = List.length (dedx self) /\
      min_energy self <= 0 /\
      (forall x d,
          In (x, d) (combine (energy self) (dedx self)) <->
          (exists r, In r df /\ x = Energy_MeV r /\ d = dE_dx r) \/
          (Forall (fun r => 0 < Energy_MeV r) df /\ x = 0 /\ d = 0)) /\
      (forall r, In r df ->
         min_energy self <= Energy_MeV r <= max_energy self) /\
      get_energy_range self = (min_energy self, max_energy self) /\
      min_energy self <= max_energy self).
Proof.
  split; [|split].
  - unfold init. destruct (sort_values df) eqn:E.
    + apply (proj1 (sort_values_nil df)) in E.
      split; [intros _; exact E | reflexivity].
    + split; [discriminate|]. intros ->. discriminate.
  - unfold init. destruct (sort_values df); [|discriminate].
    intros e H. now injection H as <-.
  - intros self Hinit.
    destruct (init_table df self Hinit)
      as (r0 & rows & table & Hsort & Htable & Hsorted & He & Hd & Hmax & Hmin).
    pose proof (energy_le_sorted_map table Hsorted) as HsE.
    pose proof (sort_values_perm df) as Hperm. rewrite Hsort in Hperm.
    assert (Hin : forall r, In r df <-> In r (r0 :: rows)).
    { intros r. split; intros H.
      - now apply (Permutation_in r Hperm).
      - now apply (Permutation_in r (Permutation_sym Hperm)). }
    assert (Hfirst : forall r, In r df -> Energy_MeV r0 <= Energy_MeV r).
    { intros r Hr. apply Hin in Hr.
      pose proof (sort_values_sorted df) as Hs. rewrite Hsort in Hs.
      apply energy_le_sorted_map in Hs.
      destruct (sorted_bounds _ Hs (Energy_MeV r) (in_map Energy_MeV _ _ Hr))
        as [H _]. exact H. }
    assert (Hpos : Qlt_bool 0 (Energy_MeV r0) = true <->
                   Forall (fun r => 0 < Energy_MeV r) df).
    { rewrite Qlt_bool_iff, Forall_forall. split.
      - intros H r Hr. specialize (Hfirst r Hr). lra.
      - intros H. apply H. apply Hin. now left. }
    assert (Hcomb : combine (energy self) (dedx self)
                    = map (fun r => (Energy_MeV r, dE_dx r)) table).
    { rewrite He, Hd. clear. induction table; simpl; congruence. }
    assert (Htab : forall r, In r table <->
                     In r df \/ (Qlt_bool 0 (Energy_MeV r0) = true /\ r = mkRow 0 0)).
    { intros r. rewrite Htable, Hin.
      destruct (Qlt_bool 0 (Energy_MeV r0)); simpl; split; intros H;
        try tauto.
      - destruct H as [H|H]; auto.
      - destruct H as [H|[_ H]]; auto.
      - destruct H as [H|[H _]]; [assumption|discriminate]. }
    split; [now rewrite He|].
    split; [now rewrite He, Hd, !length_map|].
    assert (Hmin0 : min_energy self <= 0).
    { rewrite Hmin, Htable.
      destruct (Qlt_bool 0 (Energy_MeV r0)) eqn:T; simpl; [lra|].
      now cases_on_tests. }
    split; [exact Hmin0|].
    split.
    { intros x d. rewrite Hcomb, in_map_iff. split.
      - intros [r [Hr Hrt]]. injection Hr as <- <-.
        apply Htab in Hrt as [Hrt|[Ho ->]].
        + left. exists r. auto.
        + right. split; [now apply Hpos|]. split; reflexivity.
      - intros [[r [Hr [-> ->]]]|[Hall [-> ->]]].
        + exists r. split; [reflexivity|]. apply Htab. now left.
        + exists (mkRow 0 0). split; [reflexivity|]. apply Htab. right.
          split; [now apply Hpos|reflexivity]. }
    assert (Hrange : forall r, In r df ->
                       min_energy self <= Energy_MeV r <= max_energy self).
    { intros r Hr. rewrite Hmin, Hmax. apply sorted_bounds.
      - exact HsE.
      - apply in_map. apply Htab. now left. }
    split; [exact Hrange|]. split; [reflexivity|].
    destruct (Hrange r0 (proj2 (Hin r0) (or_introl eq_refl))). lra.
Qed.

(** What the constructor keeps: it fails for the empty frame only; the
    energies of the table are in non-decreasing order and start at or
    below 0, so that the integration from 0 starts inside the table;
    the samples of the table are those of the frame, and the origin
    (0, 0) exactly when every energy of the frame is positive; and the
    range reported spans the energies of the frame. *)
Theorem init_invariants (df : frame) :
  (init df = Raise IndexError_empty_frame <-> df = []) /\
  (forall e, init df = Raise e -> e = IndexError_empty_frame) /\
  (forall self,
      init df = Ok self ->
      Sorted Qle (energy self) /\
      List.length (energy self) = List.length (dedx self) /\
      min_energy self <= 0 /\
      (forall x d,
          In (x, d) (combine (energy self) (dedx self)) <->
          (exists r, In r df /\ x = Energy_MeV r /\ d = dE_dx r) \/
          (Forall (fun r => 0 < Energy_MeV r) df /\ x = 0 /\ d = 0)) /\
      (forall r, In r df ->
         min_energy self <= Energy_MeV r <= max_energy self) /\
      get_energy_range self = (min_energy self, max_energy self) /\
      min_energy self <= max_energy self).
Proof. exact (init_invariants_aux df). Qed.

(** *** The interpolant *)




(** Outside the table the curve continues the line of the first two
    samples below it and the line of the last two samples above it; so
    where the last two samples fall, the stopping power read past their
    zero crossing is negative. *)
Theorem extrapolation_is_linear (self : BirksCalculator) (x : Q) :
  Sorted Qle (energy self) ->
  (2 <= List.length (energy self))%nat ->
  let n := List.length (energy self) in
  let x_0 := nth 0 (energy self) 0 in
  let x_1 := nth 1 (energy self) 0 in
  let y_0 := nth 0 (dedx self) 0 in
  let y_1 := nth 1 (dedx self) 0 in
  let x_p := nth (n - 2) (energy self) 0 in
  let x_l := nth (n - 1) (energy self) 0 in
  let y_p := nth (n - 2) (dedx self) 0 in
  let y_l := nth (n - 1) (dedx self) 0 in
  (x <= x_0 ->
   get_dedx self x = (y_1 - y_0) / (x_1 - x_0) * (x - x_0) + y_0) /\
  (x_l < x ->
   get_dedx self x = (y_l - y_p) / (x_l - x_p) * (x - x_p) + y_p) /\
  (x_p < x_l -> y_l < y_p ->
   x_l + y_l * (x_l - x_p) / (y_p - y_l) < x ->
   0 <= y_l ->
   get_dedx self x < 0).
Proof.
  intros Hs Hn n x_0 x_1 y_0 y_1 x_p x_l y_p y_l.
  pose proof (sorted_bounds _ Hs) as Hb.
  assert (Hlast : last (energy self) 0 = x_l) by apply last_is_nth.
  assert (Hhd : hd 0 (energy self) = x_0).
  { unfold x_0. destruct (energy self); [simpl in Hn; lia|reflexivity]. }
  assert (Hlow : x <= x_0 -> searchsorted (energy self) x = 0%nat).
  { intros Hx. unfold x_0 in Hx.
    destruct (energy self) as [|e xs]; [reflexivity|]. simpl in *.
    assert (T : Qlt_bool e x = false) by (apply Qlt_bool_false; lra).
    now rewrite T. }
  assert (Hhigh : x_l < x -> searchsorted (energy self) x = n).
  { intros Hx.
    assert (Hall : forall e, In e (energy self) -> e < x).
    { intros e He. destruct (Hb e He) as [_ H]. rewrite Hlast in H. lra. }
    unfold n. clear - Hall.
    induction (energy self) as [|e xs IH]; [reflexivity|]. simpl.
    assert (T : Qlt_bool e x = true)
      by (apply Qlt_bool_iff; apply Hall; now left).
    rewrite T. f_equal. apply IH. intros e' He'. apply Hall. now right. }
  assert (Habove : x_l < x ->
            get_dedx self x = (y_l - y_p) / (x_l - x_p) * (x - x_p) + y_p).
  { intros Hx. unfold get_dedx, interp1d. rewrite (Hhigh Hx).
    fold n.
    assert (E : clip n 1 (n - 1) = (n - 1)%nat) by (unfold clip; lia).
    rewrite E. replace (n - 1 - 1)%nat with (n - 2)%nat by lia.
    reflexivity. }
  split; [|split].
  - intros Hx. unfold get_dedx, interp1d. rewrite (Hlow Hx).
    fold n.
    assert (E : clip 0 1 (n - 1) = 1%nat) by (unfold clip; lia).
    rewrite E. reflexivity.
  - exact Habove.
  - intros Hx Hy Hcross Hyl.
    assert (Hxl : x_l < x).
    { assert (0 <= y_l * (x_l - x_p) / (y_p - y_l)).
      { apply Qle_shift_div_l; [lra|].
        assert (0 <= y_l * (x_l - x_p)) by (apply Qmult_le_0_compat; lra).
        lra. }
      lra. }
    rewrite (Habove Hxl).
    assert (Hd : 0 < y_p - y_l) by lra.
    assert (Hc : y_l * (x_l - x_p) < (x - x_l) * (y_p - y_l)).
    { assert (H : y_l * (x_l - x_p) / (y_p - y_l) < x - x_l) by lra.
      apply (Qmult_lt_r _ _ (y_p - y_l) Hd) in H.
      assert (E : y_l * (x_l - x_p) / (y_p - y_l) * (y_p - y_l)
                  == y_l * (x_l - x_p)) by (field; lra).
      lra. }
    setoid_replace ((y_l - y_p) / (x_l - x_p) * (x - x_p) + y_p)
      with ((y_l * (x_l - x_p) - (x - x_l) * (y_p - y_l)) / (x_l - x_p))
      by (field; lra).
    apply Qlt_shift_div_r; lra.
Qed.

(** *** Errors and edges of the forward calculation *)

Section ForwardEdges.

Variable quad : quad_type.

(** For an initial energy that is not positive both forward functions
    return 0, before looking at [kB] or integrating; a negative [kB] is
    refused exactly for a positive energy; the integration is reported
    as failed exactly when the integrator raises; and the quenching
    factor raises what the visible energy raises. *)
Theorem forward_edge_cases (self : BirksCalculator) (E kb : Q) :
  (E <= 0 ->
   calculate_visible_energy quad self E kb = Ok 0 /\
   calculate_quenching_factor quad self E kb = Ok 0) /\
  (calculate_visible_energy quad self E kb = Raise ValueError_negative_kb <->
   0 < E /\ kb < 0) /\
  (calculate_visible_energy quad self E kb
   = Raise RuntimeError_integration_failed <->
   0 < E /\ 0 <= kb /\ quad (integrand self kb) 0 E = None) /\
  (forall e,
      calculate_quenching_factor quad self E kb = Raise e <->
      calculate_visible_energy quad self E kb = Raise e).
Proof.
  unfold calculate_quenching_factor, calculate_visible_energy.
  destruct (Qle_bool E 0) eqn:T1; cases_on_tests.
  - repeat split; intros; try discriminate; try reflexivity;
      try (exfalso; lra); tauto.
  - destruct (Qlt_bool kb 0) eqn:T2; cases_on_tests; cbn [bind].
    + repeat split; intros; try discriminate; try reflexivity;
        try assumption; try (exfalso; lra); tauto.
    + destruct (quad (integrand self kb) 0 E) as [v|] eqn:Hq; cbn [bind];
        repeat split; intros; try discriminate; try reflexivity;
        try assumption; try (exfalso; lra);
        try (exfalso; tauto); try tauto; try lra.
      all: try (destruct H as (_ & _ & H); discriminate).
      all: try (destruct H as [_ H]; lra).
Qed.

End ForwardEdges.

(** *** The bracket of the root search *)

Section RootSearch.

Variable quad : quad_type.
Variable brentq : brentq_type.

Lemma check_bracket_sign (obj : Q -> result Q) (f_min f_max kb_max b : Q) :
  obj kb_max = Ok f_max ->
  check_bracket obj f_min f_max kb_max = Ok b ->
  exists f_b, (b = kb_max \/ b = 2) /\ obj b = Ok f_b /\ f_min * f_b <= 0.
Proof.
  intros Hmax. unfold check_bracket.
  destruct (Qlt_bool 0 (f_min * f_max)) eqn:T1; cases_on_tests.
  - destruct (Qlt_bool 0 f_max) eqn:T2; cases_on_tests; [|discriminate].
    destruct (obj 2) as [f_2|e] eqn:H2; cbn [bind]; [|discriminate].
    destruct (Qlt_bool 0 f_2) eqn:T3; cases_on_tests; [discriminate|].
    intros H. injection H as <-. exists f_2.
    split; [now right|]. split; [assumption|].
    assert (Hmin : 0 < f_min).
    { destruct (Qlt_le_dec 0 f_min) as [H|H]; [assumption|]. exfalso.
      assert (0 <= - f_min * f_max) by (apply Qmult_le_0_compat; lra).
      lra. }
    assert (0 <= f_min * - f_2) by (apply Qmult_le_0_compat; lra).
    lra.
  - intros H. injection H as <-. exists f_max.
    split; [now left|]. split; assumption.
Qed.

(** A Birks constant returned by [solve_kb] is either the 0 of the
    special case or what the root finder returned for a bracket
    [kb_min, b], [b] being [kb_max] or 2.0, at whose ends the objective
    was evaluated and does not have the same sign: the root finder is
    never started without a change of sign. *)
Theorem root_search_bracket
    (self : BirksCalculator) (E obs kb_min kb_max r : Q) :
  solve_kb quad brentq self E obs kb_min kb_max = Ok r ->
  (Qabs (obs - E) < 0.000000001 /\ r = 0) \/
  (exists b f_min f_b,
      (b = kb_max \/ b = 2) /\
      objective quad self E obs kb_min = Ok f_min /\
      objective quad self E obs b = Ok f_b /\
      f_min * f_b <= 0 /\
      brentq (objective quad self E obs) kb_min b = Some r).
Proof.
  unfold solve_kb.
  destruct (Qle_bool E 0); [discriminate|].
  destruct (Qle_bool obs 0); [discriminate|].
  destruct (Qlt_bool E obs); [discriminate|].
  destruct (Qlt_bool (Qabs (obs - E)) 0.000000001) eqn:T; cases_on_tests.
  - intros H. injection H as <-. now left.
  - destruct (objective quad self E obs kb_min) as [f_min|] eqn:Hmin;
      cbn [bind]; [|discriminate].
    destruct (objective quad self E obs kb_max) as [f_max|] eqn:Hmax;
      cbn [bind]; [|discriminate].
    destruct (check_bracket (objective quad self E obs) f_min f_max kb_max)
      as [b|] eqn:Hb; cbn [bind]; [|discriminate].
    destruct (brentq (objective quad self E obs) kb_min b) as [r'|] eqn:Hr;
      [|discriminate].
    intros H. injection H as <-. right.
    destruct (check_bracket_sign _ _ _ _ _ Hmax Hb) as (f_b & Hbb & Hfb & Hs).
    exists b, f_min, f_b. auto.
Qed.

Hypothesis laws : integral_laws quad.

(** With the lower end of the bracket at 0, its default, [solve_kb]
    never fails for an objective that is negative at both ends: at
    [kB = 0] the objective is [initialEnergy - observedEnergy], which
    the tests before it leave non-negative. *)
Theorem no_undershoot_from_zero
    (self : BirksCalculator) (E obs kb_max : Q) :
  solve_kb quad brentq self E obs 0 kb_max
  <> Raise ValueError_no_solution_in_range.
Proof.
  unfold solve_kb.
  destruct (Qle_bool E 0) eqn:T1; [discriminate|].
  destruct (Qle_bool obs 0) eqn:T2; [discriminate|].
  destruct (Qlt_bool E obs) eqn:T3; [discriminate|].
  destruct (Qlt_bool (Qabs (obs - E)) 0.000000001); [discriminate|].
  cases_on_tests.
  unfold objective at 1.
  destruct (calculate_visible_energy quad self E 0) as [v0|e] eqn:H0;
    cbn [bind].
  2:{ intros H. injection H as ->.
      unfold calculate_visible_energy in H0.
      destruct (Qle_bool E 0); [discriminate|].
      destruct (Qlt_bool 0 0); [discriminate|].
      destruct (quad _ 0 E); discriminate. }
  pose proof (visible_energy_kb_0 quad laws self E v0 T1 H0) as Hv0.
  destruct (objective quad self E obs kb_max) as [f_max|e] eqn:Hmax;
    cbn [bind].
  2:{ intros H. injection H as ->.
      unfold objective, calculate_visible_energy in Hmax.
      destruct (Qle_bool E 0); [discriminate|].
      destruct (Qlt_bool kb_max 0); [discriminate|].
      destruct (quad _ 0 E); discriminate. }
  unfold check_bracket.
  destruct (Qlt_bool 0 ((v0 - obs) * f_max)) eqn:T4; cases_on_tests.
  - destruct (Qlt_bool 0 f_max) eqn:T5; cases_on_tests.
    + destruct (objective quad self E obs 2) as [f_2|e] eqn:H2; cbn [bind].
      * destruct (Qlt_bool 0 f_2); cbn [bind]; [discriminate|].
        destruct (brentq _ 0 2); discriminate.
      * intros H. injection H as ->.
        unfold objective, calculate_visible_energy in H2.
        destruct (Qle_bool E 0); [discriminate|].
        destruct (Qlt_bool 2 0); [discriminate|].
        destruct (quad _ 0 E); discriminate.
    + exfalso.
      assert (0 <= (v0 - obs) * - f_max) by (apply Qmult_le_0_compat; lra).
      lra.
  - cbn [bind]. destruct (brentq _ 0 kb_max); discriminate.
Qed.

End RootSearch.



Lemma scenario_energy_sorted :
  Sorted Qle (energy (calculator_of scenario_frame)).
Proof. repeat constructor; discriminate. Qed.

Lemma extrapolation_is_linear_witness :
  get_dedx (calculator_of scenario_frame) 7 < 0.
Proof.
  refine (proj2 (proj2 (extrapolation_is_linear (calculator_of scenario_frame) 7
                          scenario_energy_sorted (le_S 2 2 (le_n 2))))
            _ _ _ _);
    [reflexivity | reflexivity | reflexivity | discriminate].
Defined.

Lemma root_search_bracket_witness :
  exists r,
    solve_kb (midpoint_rule 1) bisection (calculator_of scenario_frame)
      2 1.9999999 0 0.0000001 = Ok r /\
    ((Qabs (1.9999999 - 2) < 0.000000001 /\ r = 0) \/
     (exists b f_min f_b,
         (b = 0.0000001 \/ b = 2) /\
         objective (midpoint_rule 1) (calculator_of scenario_frame)
           2 1.9999999 0 = Ok f_min /\
         objective (midpoint_rule 1) (calculator_of scenario_frame)
           2 1.9999999 b = Ok f_b /\
         f_min * f_b <= 0 /\
         bisection
           (objective (midpoint_rule 1) (calculator_of scenario_frame)
              2 1.9999999) 0 b = Some r)).
Proof.
  eexists. split; [vm_compute; reflexivity|].
  apply (root_search_bracket (midpoint_rule 1) bisection
           (calculator_of scenario_frame) 2 1.9999999 0 0.0000001).
  vm_compute; reflexivity.
Defined.

Lemma no_undershoot_from_zero_witness :
  solve_kb (midpoint_rule 1) bisection (calculator_of scenario_frame)
    2 0.09 0 0.5
  <> Raise ValueError_no_solution_in_range.
Proof.
  exact (no_undershoot_from_zero (midpoint_rule 1) bisection
           (midpoint_rule_laws 1) (calculator_of scenario_frame) 2 0.09 0.5).
Defined.

End CalculatorFacts.

(** ** The dashboard *)

Module AppFacts.

Import Validation Physics App PhysicsFacts ValidationFacts CalculatorFacts.

Local Open Scope Q_scope.

Lemma fold_qmax_in (values : list Q) :
  forall x, In (fold_left qmax values x) (x :: values).
Proof.
  induction values as [|y values IH]; intros x; simpl; [now left|].
  destruct (IH (qmax x y)) as [H|H].
  - rewrite <- H. unfold qmax. destruct (Qle_bool x y); auto.
  - auto.
Qed.

Lemma series_max_in (values : list Q) :
  values <> [] -> In (series_max values) values.
Proof.
  destruct values as [|x values]; [congruence|]. intros _.
  apply fold_qmax_in.
Qed.

(** What is known of a frame that passed the upload. *)
Lemma uploaded_frame_valid (content : string) (df : frame) :
  uploaded_frame content = Some df ->
  SrimParser.parse_srim_text content = Ok df /\
  df <> [] /\
  Forall (fun r => 0 <= Energy_MeV r) df /\
  Forall (fun r => 0 <= dE_dx r) df.
Proof.
  unfold uploaded_frame.
  destruct (SrimParser.parse_srim_text content) as [df'|] eqn:Hp; [|discriminate].
  destruct (validate_of_rows_cases df') as [V|[V|[V|V]]]; rewrite V;
    try discriminate.
  intros H. injection H as <-. split; [reflexivity|].
  now apply validate_dataframe_rows_aux.
Qed.

Lemma init_succeeds (df : frame) :
  df <> [] -> exists self, init df = Ok self.
Proof.
  intros Hne. unfold init.
  destruct (sort_values df) eqn:E; [|eauto].
  apply (proj1 (sort_values_nil df)) in E. contradiction.
Qed.

(** The largest energy the inputs accept is inside the table. *)
Lemma energy_max_value_in_table (df : frame) (self : BirksCalculator) :
  init df = Ok self -> energy_max_value df <= max_energy self.
Proof.
  intros Hinit.
  assert (Hne : df <> []).
  { intros ->. discriminate. }
  unfold energy_max_value.
  assert (Hin : In (series_max (map Energy_MeV df)) (map Energy_MeV df)).
  { apply series_max_in. destruct df; [congruence|discriminate]. }
  apply in_map_iff in Hin as [r [Hr Hrin]]. rewrite <- Hr.
  destruct (init_invariants_aux df) as (_ & _ & H).
  destruct (H self Hinit) as (_ & _ & _ & _ & Hrange & _).
  now apply Hrange.
Qed.

Section Tabs.

Variable quad : quad_type.
Variable brentq : brentq_type.
Hypothesis laws : integral_laws quad.

(** The first tab, for an uploaded file and inputs within the bounds of
    the two number fields: the calculator is built; the only error
    that can be shown is a failed integration; and the values shown are
    a quenching factor in [0, 1], an energy loss in [0, 100] percent
    and a visible energy that is the factor times the particle energy,
    in keV. *)
Theorem forward_tab (content : string) (df : frame) (E kb_um : Q) :
  uploaded_frame content = Some df ->
  0.001 <= E <= energy_max_value df ->
  0 <= kb_um <= 1000 ->
  exists calculator,
    init df = Ok calculator /\
    (forall e,
        forward_calculation quad calculator E kb_um = Raise e ->
        e = RuntimeError_integration_failed) /\
    (forall visible qf loss,
        forward_calculation quad calculator E kb_um = Ok (visible, qf, loss) ->
        0 <= qf <= 1 /\ 0 <= loss <= 100 /\
        visible == qf * E * 1000 /\ 0 <= visible <= E * 1000).
Proof.
  intros Hup [HE1 HE2] [Hk1 Hk2].
  destruct (uploaded_frame_valid content df Hup) as (_ & Hne & _ & Hd).
  destruct (init_succeeds df Hne) as [self Hinit].
  exists self. split; [exact Hinit|].
  assert (HE : 0 < E) by lra.
  assert (Hkb : 0 <= kb_um / 1000) by (apply Qle_shift_div_l; lra).
  pose proof (energy_max_value_in_table df self Hinit) as Hmax.
  assert (Hdedx : forall x, 0 <= x <= E -> 0 <= get_dedx self x)
    by (intros x Hx; apply (get_dedx_nonneg df); auto; lra).
  unfold forward_calculation.
  rewrite quenching_factor_unfold by assumption.
  destruct (calculate_visible_energy quad self E (kb_um / 1000)) as [v|e0] eqn:Hv;
    cbn [bind].
  - split; [discriminate|].
    intros visible qf loss H. injection H as <- <- <-.
    pose proof (visible_energy_nonneg quad laws _ _ _ _ HE Hkb Hv) as H0.
    pose proof (visible_energy_le_initial quad laws _ _ _ _ HE Hkb Hdedx Hv) as H1.
    assert (Hq0 : 0 <= v / E) by (apply Qle_shift_div_l; lra).
    assert (Hq1 : v / E <= 1) by (apply Qle_shift_div_r; lra).
    assert (Hv' : v / E * E == v) by (field; lra).
    repeat split; lra.
  - split; [|discriminate].
    intros e H. injection H as <-.
    rewrite visible_energy_unfold in Hv by assumption.
    destruct (quad _ 0 E); congruence.
Qed.

Hypothesis total : quad_total quad.
Hypothesis brackets : brentq_brackets brentq.

(** [solve_kb] with the default bracket on energies that pass its
    tests: it finds a Birks constant in [0, 2] or reports that 2.0 is
    not enough. *)
Lemma solve_kb_default_outcomes (self : BirksCalculator) (E obs : Q) :
  0 < E -> 0 < obs -> obs <= E ->
  solve_kb_default quad brentq self E obs
  = Raise ValueError_no_solution_max_kb \/
  exists r, solve_kb_default quad brentq self E obs = Ok r /\ 0 <= r <= 2.
Proof.
  intros HE Ho HoE. unfold solve_kb_default, solve_kb.
  destruct (Qle_bool E 0) eqn:T1; cases_on_tests; [lra|].
  destruct (Qle_bool obs 0) eqn:T2; cases_on_tests; [lra|].
  destruct (Qlt_bool E obs) eqn:T3; cases_on_tests; [lra|].
  destruct (Qlt_bool (Qabs (obs - E)) 0.000000001);
    [right; exists 0; split; [reflexivity|lra]|].
  set (g := fun k => visible quad self E k - obs).
  assert (Hobj : forall k, 0 <= k -> objective quad self E obs k = Ok (g k)).
  { intros k Hk. unfold objective.
    now rewrite (visible_energy_returns quad total self E k HE Hk). }
  assert (Hg0 : 0 <= g 0).
  { unfold g.
    pose proof (visible_energy_kb_0 quad laws self E _ HE
                  (visible_energy_returns quad total self E 0 HE ltac:(lra))).
    lra. }
  rewrite !Hobj by lra. cbn [bind]. unfold check_bracket.
  destruct (Qlt_bool 0 (g 0 * g 0.5)) eqn:T4; cases_on_tests.
  - destruct (Qlt_bool 0 (g 0.5)) eqn:T5; cases_on_tests.
    + rewrite Hobj by lra. cbn [bind].
      destruct (Qlt_bool 0 (g 2)) eqn:T6; cases_on_tests; cbn [bind];
        [now left|].
      right.
      destruct (brackets (objective quad self E obs) g 0 2)
        as (r & u & w & Hr & H1 & H2 & H3 & H4 & _);
        [lra | intros x Hx; apply Hobj; lra | |].
      * assert (0 <= g 0 * - g 2) by (apply Qmult_le_0_compat; lra). lra.
      * rewrite Hr. exists r. split; [reflexivity|lra].
    + exfalso.
      assert (0 <= g 0 * - g 0.5) by (apply Qmult_le_0_compat; lra). lra.
  - cbn [bind]. right.
    destruct (brackets (objective quad self E obs) g 0 0.5)
      as (r & u & w & Hr & H1 & H2 & H3 & H4 & _);
      [lra | intros x Hx; apply Hobj; lra | assumption |].
    rewrite Hr. exists r. split; [reflexivity|lra].
Qed.

(** The second tab, for an uploaded file and inputs within the bounds
    of the two number fields, when the integrator returns and the root
    finder brackets a change of sign: the energies pass the tests of
    [solve_kb], so that the only error that can be shown is the one for
    a Birks constant above 2.0; otherwise the constant shown is in
    [0, 2] mm/MeV, a thousand times that in um/MeV, and the quenching
    factor of the verification is in [0, 1]. *)
Theorem inverse_tab (content : string) (df : frame) (E obs_kev : Q) :
  uploaded_frame content = Some df ->
  0.001 <= E <= energy_max_value df ->
  0.1 <= obs_kev <= E * 1000 ->
  exists calculator,
    init df = Ok calculator /\
    (forall e,
        inverse_solver quad brentq calculator E obs_kev = Raise e ->
        e = ValueError_no_solution_max_kb) /\
    (forall kb_um kb_mm qf err,
        inverse_solver quad brentq calculator E obs_kev
        = Ok (kb_um, kb_mm, qf, err) ->
        0 <= kb_mm <= 2 /\ kb_um == kb_mm * 1000 /\
        0 <= qf <= 1 /\ 0 <= err).
Proof.
  intros Hup [HE1 HE2] [Ho1 Ho2].
  destruct (uploaded_frame_valid content df Hup) as (_ & Hne & _ & Hd).
  destruct (init_succeeds df Hne) as [self Hinit].
  exists self. split; [exact Hinit|].
  assert (HE : 0 < E) by lra.
  assert (Hobs0 : 0 < obs_kev / 1000) by (apply Qlt_shift_div_l; lra).
  assert (HobsE : obs_kev / 1000 <= E) by (apply Qle_shift_div_r; lra).
  pose proof (energy_max_value_in_table df self Hinit) as Hmax.
  assert (Hdedx : forall x, 0 <= x <= E -> 0 <= get_dedx self x)
    by (intros x Hx; apply (get_dedx_nonneg df); auto; lra).
  unfold inverse_solver.
  destruct (solve_kb_default_outcomes self E (obs_kev / 1000) HE Hobs0 HobsE)
    as [Hs|[r [Hs Hr]]]; rewrite Hs; cbn [bind].
  - split; [|discriminate]. intros e H. now injection H as <-.
  - assert (Hr0 : 0 <= r) by lra.
    pose proof (visible_energy_returns quad total self E r HE Hr0) as Hv.
    rewrite Hv. cbn [bind]. split; [discriminate|].
    intros kb_um kb_mm qf err H. injection H as <- <- <- <-.
    pose proof (visible_energy_nonneg quad laws self E r _ HE Hr0 Hv) as H0.
    pose proof (visible_energy_le_initial quad laws self E r _ HE Hr0 Hdedx Hv)
      as H1.
    repeat split; try lra.
    + apply Qle_shift_div_l; lra.
    + apply Qle_shift_div_r; lra.
    + apply Qmult_le_0_compat; [|lra].
      apply Qle_shift_div_l; [lra|].
      rewrite Qmult_0_l.
      exact (Qabs_nonneg (visible quad self E r * 1000 - obs_kev)).
Qed.

End Tabs.

Lemma forward_tab_witness :
  exists calculator,
    init SrimParser.shuffled_frame = Ok calculator /\
    (forall e,
        forward_calculation (midpoint_rule 1) calculator 1 10 = Raise e ->
        e = RuntimeError_integration_failed) /\
    (forall visible qf loss,
        forward_calculation (midpoint_rule 1) calculator 1 10
        = Ok (visible, qf, loss) ->
        0 <= qf <= 1 /\ 0 <= loss <= 100 /\
        visible == qf * 1 * 1000 /\ 0 <= visible <= 1 * 1000).
Proof.
  apply (forward_tab (midpoint_rule 1) (midpoint_rule_laws 1)
           SrimParser.shuffled_text SrimParser.shuffled_frame 1 10).
  - vm_compute; reflexivity.
  - split; vm_compute; discriminate.
  - split; vm_compute; discriminate.
Defined.

Lemma inverse_tab_witness :
  exists calculator,
    init SrimParser.shuffled_frame = Ok calculator /\
    (forall e,
        inverse_solver (midpoint_rule 1) bisection calculator 1 500 = Raise e ->
        e = ValueError_no_solution_max_kb) /\
    (forall kb_um kb_mm qf err,
        inverse_solver (midpoint_rule 1) bisection calculator 1 500
        = Ok (kb_um, kb_mm, qf, err) ->
        0 <= kb_mm <= 2 /\ kb_um == kb_mm * 1000 /\
        0 <= qf <= 1 /\ 0 <= err).
Proof.
  apply (inverse_tab (midpoint_rule 1) bisection (midpoint_rule_laws 1)
           (midpoint_rule_total 1) bisection_brackets
           SrimParser.shuffled_text SrimParser.shuffled_frame 1 500).
  - vm_compute; reflexivity.
  - split; vm_compute; discriminate.
  - split; vm_compute; discriminate.
Defined.

End AppFacts.
